(** * Coloring page generator: outline extraction, region fill and undo

    A shallow embedding of [src/app/main.cpp] (class
    [ColoringPageGenerator]) and the properties of its specification.

    The program is a Qt widget that owns a [cv::Mat] working raster, a
    vector of [cv::Mat] snapshots and a [QImage] that wraps the working
    raster's buffer without copying it.  Buffers are therefore kept in an
    explicit store, a [cv::Mat] is a header that points into the store, and
    [clone] is the only operation that allocates a buffer with copied
    contents.  A buffer is never released in the model, so a pointer that
    outlives its matrix reads and writes a buffer nobody else uses.  Calls
    into OpenCV and Qt are calls through the interfaces [OpenCV] and [Qt];
    what the handlers do around those calls is transcribed from the
    source. *)

From Stdlib Require Import ZArith QArith Qround Qpower Lqa Lia String List Bool.
From Stdlib Require Import Floats Uint63.
From stdpp Require Import gmap list strings.

Open Scope Z_scope.

(** ** IEEE double arithmetic

    [generateColoringPage] computes the target size with [double] division
    and multiplication and truncating casts to [int].  A finite double is
    represented by the rational it denotes; every operation computes the
    exact rational result and rounds it to the nearest number with a 53 bit
    significand, ties to even.  The exponent range is not modelled: the
    operands here are quotients and products of 32 bit integers. *)

Module Double.

Definition pow2 (k : Z) : Q := Qpower 2 k.

(** The exponent [e] with [2^e <= q < 2^(e+1)], for positive [q]. *)
Definition ilog2 (q : Q) : Z :=
  let e := Z.log2 (Qnum q) - Z.log2 (Z.pos (Qden q)) in
  if Qle_bool (pow2 e) q then e else e - 1.

(** Round to the nearest integer, ties to even. *)
Definition rne (m : Q) : Z :=
  let f := Qfloor m in
  match Qcompare (m - inject_Z f) (1 # 2) with
  | Lt => f
  | Gt => f + 1
  | Eq => if Z.even f then f else f + 1
  end.

Definition ulp (q : Q) : Q := pow2 (ilog2 q - 52).

Definition round_pos (q : Q) : Q :=
  Qred (inject_Z (rne (q / ulp q)) * ulp q).

Definition fl (q : Q) : Q :=
  match Qcompare q 0 with
  | Eq => 0%Q
  | Gt => round_pos q
  | Lt => Qopp (round_pos (Qopp q))
  end.

(** [static_cast<double>(int)] *)
Definition of_int (z : Z) : Q := fl (inject_Z z).

Definition div (x y : Q) : Q := fl (x / y).
Definition mul (x y : Q) : Q := fl (x * y).

(** The range of [int], 32 bits. *)
Definition INT_MIN : Z := - 2 ^ 31.
Definition INT_MAX : Z := 2 ^ 31 - 1.

(** Truncation toward zero. *)
Definition trunc (x : Q) : Z := Z.quot (Qnum x) (Z.pos (Qden x)).

(** [static_cast<int>(double)]: the value truncated toward zero when that
    fits an [int].  When it does not, the cast is undefined in C++; the
    instruction it is compiled to on x86-64, [cvttsd2si], then gives
    [INT_MIN], and so does the model. *)
Definition to_int (x : Q) : Z :=
  let t := trunc x in
  if (INT_MIN <=? t) && (t <=? INT_MAX) then t else INT_MIN.

End Double.

(** Lines 193-202 of [generateColoringPage]: the size the photo is resized
    to, from its [cols] and [rows] and the size of the drawing area. *)
Definition targetSize (cols rows maxWidth maxHeight : Z) : Z * Z :=
  let aspectRatio := Double.div (Double.of_int cols) (Double.of_int rows) in
  let newWidth := maxWidth in
  let newHeight := Double.to_int (Double.div (Double.of_int newWidth) aspectRatio) in
  if maxHeight <? newHeight
  then (Double.to_int (Double.mul (Double.of_int maxHeight) aspectRatio), maxHeight)
  else (newWidth, newHeight).

(** The same computation on the binary64 numbers of the machine, to
    compare the model with. *)
Module Hardware.

Definition of_int (z : Z) : float := PrimFloat.of_uint63 (Uint63.of_Z z).

Definition to_int (f : float) : Z :=
  match Prim2SF f with
  | S754_zero _ => 0
  | S754_finite s m e =>
      let v := if 0 <=? e then Z.pos m * 2 ^ e else Z.pos m / 2 ^ (- e) in
      let t := if s then - v else v in
      if (Double.INT_MIN <=? t) && (t <=? Double.INT_MAX) then t
      else Double.INT_MIN
  | _ => Double.INT_MIN
  end.

Definition targetSize (cols rows maxWidth maxHeight : Z) : Z * Z :=
  let aspectRatio := PrimFloat.div (of_int cols) (of_int rows) in
  let newWidth := maxWidth in
  let newHeight := to_int (PrimFloat.div (of_int newWidth) aspectRatio) in
  if maxHeight <? newHeight
  then (to_int (PrimFloat.mul (of_int maxHeight) aspectRatio), maxHeight)
  else (newWidth, newHeight).

End Hardware.

(** The unit roundoff of binary64. *)
Definition u : Q := 1 # (2 ^ 53).

(** The sizes for which the bounds on [targetSize] are proved: below
    2^24.  The size of a widget is at most QWIDGETSIZE_MAX = 2^24 - 1, and
    [cv::imread] refuses images wider or higher than 2^20 pixels. *)
Definition small (z : Z) : Prop := z < 2 ^ 24.

(** ** Rasters *)

Inductive MatType := CV_8U | CV_8UC3.

Definition channels (t : MatType) : nat :=
  match t with CV_8U => 1 | CV_8UC3 => 3 end.

Global Instance MatType_eq_dec : EqDecision MatType.
Proof. solve_decision. Defined.

(** A pixel is the list of its channel bytes. *)
Definition Pixel := list Z.

(** The contents of a matrix, row after row. *)
Record Image := mkImage {
  irows : Z;
  icols : Z;
  itype : MatType;
  ipixels : list Pixel
}.

Definition Point := (Z * Z)%type.
Definition Size := (Z * Z)%type.
Definition Contour := list Point.
Definition Scalar := list Z.

(** [cv::Mat::empty] *)
Definition empty (m : Image) : bool := (irows m * icols m =? 0).

Definition size (m : Image) : Size := (icols m, irows m).

Definition saturate (v : Z) : Z := Z.max 0 (Z.min 255 v).

(** The bytes a scalar is written as in a matrix of type [t]. *)
Definition scalarPixel (t : MatType) (s : Scalar) : Pixel :=
  map saturate (take (channels t) (s ++ [0; 0; 0; 0])).

(** [cv::Mat(size, type, scalar)] *)
Definition Mat_new (sz : Size) (t : MatType) (s : Scalar) : Image :=
  {| irows := snd sz; icols := fst sz; itype := t;
     ipixels := replicate (Z.to_nat (snd sz * fst sz)) (scalarPixel t s) |}.

(** [cv::Mat::zeros(rows, cols, type)] *)
Definition zeros (r c : Z) (t : MatType) : Image := Mat_new (c, r) t [0].

Definition withPixels (m : Image) (px : list Pixel) : Image :=
  {| irows := irows m; icols := icols m; itype := itype m; ipixels := px |}.

Definition inside (m : Image) (p : Point) : bool :=
  (0 <=? fst p) && (fst p <? icols m) && (0 <=? snd p) && (snd p <? irows m).

Definition offset (m : Image) (p : Point) : nat :=
  Z.to_nat (snd p * icols m + fst p).

(** The pixel at column [fst p], row [snd p]. *)
Definition pixelAt (m : Image) (p : Point) : option Pixel :=
  if inside m p then ipixels m !! offset m p else None.

Definition nonzero (p : Pixel) : bool := existsb (fun v => negb (v =? 0)) p.

(** Results of library calls: a value, or a [cv::Exception] with its
    [what()] text. *)
Inductive Result (A : Type) :=
| Ok (a : A)
| Throw (what : string).
Arguments Ok {A} a.
Arguments Throw {A} what.

Definition sameSize (a b : Image) : bool :=
  (irows a =? irows b) && (icols a =? icols b).

(** [m.setTo(value, mask)]: every pixel whose mask byte is nonzero becomes
    [value].  OpenCV asserts that the mask is [CV_8U] and has the size of
    [m]. *)
Definition setTo (m : Image) (value : Scalar) (mask : Image) : Result (list Pixel) :=
  if sameSize m mask && bool_decide (itype mask = CV_8U)
  then Ok (zip_with (fun p k => if nonzero k then scalarPixel (itype m) value else p)
             (ipixels m) (ipixels mask))
  else Throw "setTo: mask size or type".

(** [cv::bitwise_and(a, b, dst)] on two matrices of one size and type. *)
Definition bitwise_and (a b : Image) : Result (list Pixel) :=
  if sameSize a b && bool_decide (itype a = itype b)
  then Ok (zip_with (zip_with Z.land) (ipixels a) (ipixels b))
  else Throw "bitwise_and: size or type".

(** ** The store and the widget state *)

Definition loc := nat.

(** A [cv::Mat] header.  Copying a header shares the buffer; [clone]
    copies the buffer.  [data = 0] is the null pointer of an empty
    matrix. *)
Record Mat := mkMat {
  rows : Z;
  cols : Z;
  type : MatType;
  data : loc
}.

Record QPoint := mkQPoint { qx : Z; qy : Z }.

Definition QPoint_sub (a b : QPoint) : QPoint :=
  {| qx := qx a - qx b; qy := qy a - qy b |}.

Record QColor := mkQColor { red : Z; green : Z; blue : Z }.

(** A [QImage] constructed over foreign data: it reads and writes the
    buffer it was given. *)
Record QImage := mkQImage {
  bits : loc;
  qwidth : Z;
  qheight : Z;
  bytesPerLine : Z
}.

(** The geometry of the [drawingArea] label. *)
Record QLabel := mkQLabel {
  pos : QPoint;
  width : Z;
  height : Z
}.

(** [QRect(0, 0, width, height).contains(p)] *)
Definition rect_contains (a : QLabel) (p : QPoint) : bool :=
  (0 <=? qx p) && (qx p <? width a) && (0 <=? qy p) && (qy p <? height a).

Inductive MessageBox :=
| critical (title text : string)
| information (title text : string).

Inductive MouseButton := LeftButton | RightButton | MiddleButton.

Global Instance MouseButton_eq_dec : EqDecision MouseButton.
Proof. solve_decision. Defined.

(** The members of [ColoringPageGenerator], the store of pixel buffers
    with its allocation pointer, and the message boxes shown so far. *)
Record Generator := mkGenerator {
  heap : gmap loc (list Pixel);
  next : loc;
  drawingArea : QLabel;
  drawingImage : option QImage;
  drawing : bool;
  lastPoint : QPoint;
  coloringPage : Mat;
  coloringPageHistory : list Mat;
  fillColor : QColor;
  fillToolEnabled : bool;
  shown : list MessageBox
}.

Definition set_heap (h : gmap loc (list Pixel)) (g : Generator) : Generator :=
  mkGenerator h (next g) (drawingArea g) (drawingImage g) (drawing g)
    (lastPoint g) (coloringPage g) (coloringPageHistory g) (fillColor g)
    (fillToolEnabled g) (shown g).

Definition set_next (n : loc) (g : Generator) : Generator :=
  mkGenerator (heap g) n (drawingArea g) (drawingImage g) (drawing g)
    (lastPoint g) (coloringPage g) (coloringPageHistory g) (fillColor g)
    (fillToolEnabled g) (shown g).

Definition set_drawingArea (a : QLabel) (g : Generator) : Generator :=
  mkGenerator (heap g) (next g) a (drawingImage g) (drawing g)
    (lastPoint g) (coloringPage g) (coloringPageHistory g) (fillColor g)
    (fillToolEnabled g) (shown g).

Definition set_drawingImage (i : option QImage) (g : Generator) : Generator :=
  mkGenerator (heap g) (next g) (drawingArea g) i (drawing g)
    (lastPoint g) (coloringPage g) (coloringPageHistory g) (fillColor g)
    (fillToolEnabled g) (shown g).

Definition set_drawing (b : bool) (g : Generator) : Generator :=
  mkGenerator (heap g) (next g) (drawingArea g) (drawingImage g) b
    (lastPoint g) (coloringPage g) (coloringPageHistory g) (fillColor g)
    (fillToolEnabled g) (shown g).

Definition set_lastPoint (p : QPoint) (g : Generator) : Generator :=
  mkGenerator (heap g) (next g) (drawingArea g) (drawingImage g) (drawing g)
    p (coloringPage g) (coloringPageHistory g) (fillColor g)
    (fillToolEnabled g) (shown g).

Definition set_coloringPage (m : Mat) (g : Generator) : Generator :=
  mkGenerator (heap g) (next g) (drawingArea g) (drawingImage g) (drawing g)
    (lastPoint g) m (coloringPageHistory g) (fillColor g)
    (fillToolEnabled g) (shown g).

Definition set_coloringPageHistory (h : list Mat) (g : Generator) : Generator :=
  mkGenerator (heap g) (next g) (drawingArea g) (drawingImage g) (drawing g)
    (lastPoint g) (coloringPage g) h (fillColor g)
    (fillToolEnabled g) (shown g).

Definition set_fillColor (c : QColor) (g : Generator) : Generator :=
  mkGenerator (heap g) (next g) (drawingArea g) (drawingImage g) (drawing g)
    (lastPoint g) (coloringPage g) (coloringPageHistory g) c
    (fillToolEnabled g) (shown g).

Definition set_fillToolEnabled (b : bool) (g : Generator) : Generator :=
  mkGenerator (heap g) (next g) (drawingArea g) (drawingImage g) (drawing g)
    (lastPoint g) (coloringPage g) (coloringPageHistory g) (fillColor g)
    b (shown g).

(** [QMessageBox::critical] and [QMessageBox::information] *)
Definition show (m : MessageBox) (g : Generator) : Generator :=
  mkGenerator (heap g) (next g) (drawingArea g) (drawingImage g) (drawing g)
    (lastPoint g) (coloringPage g) (coloringPageHistory g) (fillColor g)
    (fillToolEnabled g) (shown g ++ [m]).

(** The bytes a header points at. *)
Definition buffer (g : Generator) (l : loc) : list Pixel :=
  default [] (heap g !! l).

Definition imageOf (g : Generator) (m : Mat) : Image :=
  {| irows := rows m; icols := cols m; itype := type m;
     ipixels := buffer g (data m) |}.

(** The state the constructor leaves: no image, not drawing, an empty
    matrix and an empty history.  [fillToolEnabled] is not initialised by
    the constructor and the geometry of the label comes from the layout, so
    both are arguments. *)
Definition init (area : QLabel) (fillTool : bool) : Generator :=
  {| heap := ∅; next := 1%nat;
     drawingArea := area;
     drawingImage := None;
     drawing := false;
     lastPoint := mkQPoint 0 0;
     coloringPage := mkMat 0 0 CV_8U 0%nat;
     coloringPageHistory := [];
     fillColor := mkQColor 0 0 0;
     fillToolEnabled := fillTool;
     shown := [] |}.

(** ** Computations that change the state and may throw *)

Definition M (A : Type) := Generator -> Result A * Generator.

Definition ret {A} (a : A) : M A := fun g => (Ok a, g).

Definition bind {A B} (m : M A) (f : A -> M B) : M B :=
  fun g => match m g with
           | (Ok a, g') => f a g'
           | (Throw e, g') => (Throw e, g')
           end.

Notation "'do' x <- m ; k" := (bind m (fun x => k))
  (at level 10, x name, m at level 100, k at level 200).

(** A library call on values: it throws or returns, the state stays. *)
Definition call {A} (r : Result A) : M A := fun g => (r, g).

Definition gets {A} (f : Generator -> A) : M A := fun g => (Ok (f g), g).

Definition modify (f : Generator -> Generator) : M unit := fun g => (Ok tt, f g).

Definition exec {A} (m : M A) (g : Generator) : Generator := snd (m g).

(** Allocate a buffer holding [px]. *)
Definition alloc (px : list Pixel) : M loc :=
  fun g => (Ok (next g), set_next (S (next g)) (set_heap (<[next g := px]> (heap g)) g)).

(** [m.clone()]: a header over a new buffer with the same bytes. *)
Definition clone (m : Mat) : M Mat :=
  do px <- gets (fun g => buffer g (data m));
  do l <- alloc px;
  ret (mkMat (rows m) (cols m) (type m) l).

(** [coloringPage = value]: the member becomes a header over a new buffer
    (the value is a temporary or a clone in every assignment of the
    source). *)
Definition assignColoringPage (value : Image) : M unit :=
  do l <- alloc (ipixels value);
  modify (set_coloringPage (mkMat (irows value) (icols value) (itype value) l)).

(** An operation that writes its result into the [coloringPage] buffer. *)
Definition writeColoringPage (px : list Pixel) : M unit :=
  modify (fun g => set_heap (<[data (coloringPage g) := px]> (heap g)) g).

(** [new QImage(coloringPage.data, coloringPage.cols, coloringPage.rows,
    coloringPage.step, QImage::Format_RGB888)] *)
Definition wrapColoringPage : M unit :=
  modify (fun g =>
    let m := coloringPage g in
    set_drawingImage
      (Some (mkQImage (data m) (cols m) (rows m) (cols m * Z.of_nat (channels (type m))))) g).

(** [addToColoringPageHistory] (lines 309-311) *)
Definition addToColoringPageHistory (page : Mat) : M unit :=
  do c <- clone page;
  modify (fun g => set_coloringPageHistory (coloringPageHistory g ++ [c]) g).

(** [addToColoringPageHistory(coloringPage.clone())] (lines 147 and 255):
    the argument is a clone, and the function pushes a clone of it. *)
Definition snapshotColoringPage : M unit :=
  do page <- gets coloringPage;
  do copy <- clone page;
  addToColoringPageHistory copy.

(** ** The libraries the program calls *)

(** What [cv::floodFill] leaves behind: the bytes of the image it worked
    on, in place, and the exception it threw, if any. *)
Record FloodFill := mkFloodFill {
  filled : list Pixel;
  fault : option string
}.

Inductive LineType := LINE_8 | LINE_AA.

(** The OpenCV functions called by the program, with the arguments the
    source leaves to their defaults fixed.  Functions that write into an
    existing matrix return its new bytes. *)
Class OpenCV := {
  imread : string -> Image;
  resize : Image -> Size -> Result Image;
  (** [COLOR_BGR2GRAY] *)
  cvtColor : Image -> Result Image;
  (** [maxValue], [blockSize], [C]; [ADAPTIVE_THRESH_MEAN_C],
      [THRESH_BINARY_INV] *)
  adaptiveThreshold : Image -> Z -> Z -> Z -> Result Image;
  (** with a [MORPH_RECT] kernel of the given size *)
  dilate : Image -> Size -> Result Image;
  erode : Image -> Size -> Result Image;
  (** [RETR_TREE], [CHAIN_APPROX_SIMPLE] *)
  findContours : Image -> Result (list Contour);
  contourArea : Contour -> Q;
  (** [epsilon], [closed] *)
  approxPolyDP : Contour -> Z -> bool -> Result Contour;
  (** one contour, [color], [thickness] ([FILLED] is [-1]) *)
  drawContours : Image -> Contour -> Scalar -> Z -> LineType -> Result (list Pixel);
  (** [MORPH_CLOSE] with a [MORPH_RECT] kernel of the given size *)
  morphologyEx : Image -> Size -> Result (list Pixel);
  (** [inpaintRadius]; [INPAINT_TELEA] *)
  inpaint : Image -> Image -> Z -> Result (list Pixel);
  (** image, mask, seed point, new value; no rectangle, zero [loDiff] and
      [upDiff], [flags = 4] *)
  floodFill : Image -> Image -> Point -> Scalar -> FloodFill
}.

Definition FILLED : Z := -1.

(** What the fill handler relies on from [cv::floodFill] as it calls it (a
    mask of zeros, zero [loDiff] and [upDiff], no [FLOODFILL_FIXED_RANGE]):
    the function checks its arguments before it writes, so the image is
    untouched when it throws; when it returns, the seed pixel holds the new
    value, and every pixel either is as it was or holds the new value and
    was equal to the seed pixel. *)
Record FloodFillContract (cv : OpenCV) : Prop := {
  floodFill_atomic : forall m mask seed v what,
    fault (floodFill m mask seed v) = Some what ->
    filled (floodFill m mask seed v) = ipixels m;
  floodFill_seed : forall m mask seed v,
    fault (floodFill m mask seed v) = None ->
    pixelAt (withPixels m (filled (floodFill m mask seed v))) seed =
      Some (scalarPixel (itype m) v);
  floodFill_region : forall m mask seed v (i : nat),
    fault (floodFill m mask seed v) = None ->
    filled (floodFill m mask seed v) !! i = ipixels m !! i \/
    (filled (floodFill m mask seed v) !! i = Some (scalarPixel (itype m) v) /\
     ipixels m !! i = pixelAt m seed)
}.

(** The Qt painting and file functions called by the program. *)
Class Qt := {
  (** [QPainter::drawLine] with a pen of the given colour on an image of
      the given width and height: the new bytes of the image *)
  drawLine : Z -> Z -> list Pixel -> QColor -> QPoint -> QPoint -> list Pixel;
  (** [QImage::save] *)
  save : Z -> Z -> list Pixel -> string -> bool
}.

Definition QWIDGETSIZE_MAX : Z := 16777215.

(** [QWidget::setFixedSize]: the minimum and the maximum size are set to
    the bounded size and the widget is resized to it. *)
Definition setFixedSize (w h : Z) (g : Generator) : Generator :=
  let bound v := Z.min (Z.max v 0) QWIDGETSIZE_MAX in
  set_drawingArea (mkQLabel (pos (drawingArea g)) (bound w) (bound h)) g.

Definition Qltb (a b : Q) : bool := negb (Qle_bool b a).

Fixpoint forEach {A B} (f : A -> M B) (l : list A) : M (list B) :=
  match l with
  | [] => ret []
  | a :: l' =>
      do b <- f a;
      do bs <- forEach f l';
      ret (b :: bs)
  end.

Section Program.

Context {cv : OpenCV} {qt : Qt}.

Definition readColoringPage : M Image :=
  gets (fun g => imageOf g (coloringPage g)).

(** Lines 162-181.  The contours are changed in place and used by the
    caller afterwards, so they are returned. *)
Definition postProcessContours (contours : list Contour) (minContourArea : Q)
    (smoothingIterations thickness : Z) : M (list Contour) :=
  let kept := List.filter (fun contour => negb (Qltb (contourArea contour) minContourArea)) contours in
  forEach (fun contour =>
    do contour' <- call (approxPolyDP contour smoothingIterations true);
    do page <- readColoringPage;
    do px <- call (drawContours page contour' [0; 0; 0] thickness LINE_AA);
    do _ <- writeColoringPage px;
    do page <- readColoringPage;
    do px <- call (morphologyEx page (5, 5));
    do _ <- writeColoringPage px;
    ret contour') kept.

(** Lines 193-230: resize, grey scale, threshold, closing, contours.
    Returns the resized photo, the thresholded image and the contours
    that are left. *)
Definition extractOutline (image : Image) : M (Image * Image * list Contour) :=
  do maxWidth <- gets (fun g => width (drawingArea g));
  do maxHeight <- gets (fun g => height (drawingArea g));
  let '(newWidth, newHeight) := targetSize (icols image) (irows image) maxWidth maxHeight in
  do image <- call (resize image (newWidth, newHeight));
  do _ <- modify (setFixedSize newWidth newHeight);
  do w <- gets (fun g => width (drawingArea g));
  do h <- gets (fun g => height (drawingArea g));
  do image <- call (resize image (w, h));
  do grayscale <- call (cvtColor image);
  do binaryImage <- call (adaptiveThreshold grayscale 255 15 10);
  do dilatedImage <- call (dilate binaryImage (30, 30));
  do erodedImage <- call (erode dilatedImage (30, 30));
  do _ <- assignColoringPage erodedImage;
  do page <- readColoringPage;
  do contours <- call (findContours page);
  do contours <- postProcessContours contours (150 # 1) 30 1000;
  ret (image, binaryImage, contours).

(** Lines 232-238: the filled contours, closed with a 5x5 kernel. *)
Definition filledContours (sz : Size) (contours : list Contour) : Result Image :=
  let fix draw (mask : Image) (cs : list Contour) : Result Image :=
    match cs with
    | [] => Ok mask
    | contour :: cs' =>
        match drawContours mask contour [255] FILLED LINE_8 with
        | Ok px => draw (withPixels mask px) cs'
        | Throw e => Throw e
        end
    end in
  match draw (Mat_new sz CV_8U [0]) contours with
  | Ok contourMask =>
      match morphologyEx contourMask (5, 5) with
      | Ok px => Ok (withPixels contourMask px)
      | Throw e => Throw e
      end
  | Throw e => Throw e
  end.

(** Lines 232-239: [coloringPage] is intersected with the mask. *)
Definition intersectContours (contours : list Contour) : M unit :=
  do page <- readColoringPage;
  do contourMask <- call (filledContours (size page) contours);
  do px <- call (bitwise_and page contourMask);
  writeColoringPage px.

(** Lines 241-242: [coloringPage] becomes a new white raster of the size
    of the resized photo, painted black under [binaryImage]. *)
Definition renderOutline (image binaryImage : Image) : M unit :=
  do _ <- assignColoringPage (Mat_new (size image) CV_8UC3 [255; 255; 255]);
  do page <- readColoringPage;
  do px <- call (setTo page [0; 0; 0] binaryImage);
  writeColoringPage px.

(** Lines 244-253 *)
Definition repairGaps (contours : list Contour) : M unit :=
  let gapAreaThreshold := (50 # 1)%Q in
  do _ <- forEach (fun contour =>
    if Qltb (contourArea contour) gapAreaThreshold then
      do page <- readColoringPage;
      do px <- call (drawContours (Mat_new (size page) CV_8U [0]) contour [255] FILLED LINE_8);
      let gapMask := withPixels (Mat_new (size page) CV_8U [0]) px in
      do px <- call (inpaint page gapMask 3);
      writeColoringPage px
    else ret tt) contours;
  ret tt.

(** Lines 255-258 *)
Definition publish (image : Image) : M unit :=
  do _ <- snapshotColoringPage;
  do _ <- wrapColoringPage;
  modify (setFixedSize (icols image) (irows image)).

(** Lines 193-253: the outline raster is left in [coloringPage]; the
    resized photo is returned for its size. *)
Definition outline (image : Image) : M Image :=
  do r <- extractOutline image;
  let '(image, binaryImage, contours) := r in
  do _ <- intersectContours contours;
  do _ <- renderOutline image binaryImage;
  do _ <- repairGaps contours;
  ret image.

(** The [try] block of [generateColoringPage] (lines 191-261) *)
Definition pipeline (image : Image) : M unit :=
  do image <- outline image;
  publish image.

(** Lines 183-265 *)
Definition generateColoringPage (imagePath : string) (g : Generator) : Generator :=
  let image := imread imagePath in
  if empty image then show (critical "Error" "Failed to load the image.") g
  else
    match pipeline image g with
    | (Ok _, g') => g'
    | (Throw what, g') =>
        show (critical "Error" ("Failed to generate coloring page: " ++ what)) g'
    end.

(** Lines 156-161; the path is what the file dialog returned. *)
Definition browseImage (imagePath : string) (g : Generator) : Generator :=
  if bool_decide (imagePath = "") then g else generateColoringPage imagePath g.

(** Lines 108-113 *)
Definition mousePressEvent (button : MouseButton) (p : QPoint) (g : Generator) : Generator :=
  if bool_decide (button = LeftButton) && bool_decide (is_Some (drawingImage g))
  then set_lastPoint (QPoint_sub p (pos (drawingArea g))) (set_drawing true g)
  else g.

(** Lines 115-126.  The painter writes into the buffer the image
    wraps. *)
Definition mouseMoveEvent (p : QPoint) (g : Generator) : Generator :=
  match drawingImage g with
  | Some img =>
      if drawing g then
        let currentPoint := QPoint_sub p (pos (drawingArea g)) in
        if rect_contains (drawingArea g) currentPoint then
          let px := drawLine (qwidth img) (qheight img) (buffer g (bits img))
                      (fillColor g) (lastPoint g) currentPoint in
          set_lastPoint currentPoint (set_heap (<[bits img := px]> (heap g)) g)
        else g
      else g
  | None => g
  end.

(** Lines 128-132 *)
Definition mouseReleaseEvent (button : MouseButton) (p : QPoint) (g : Generator) : Generator :=
  if bool_decide (button = LeftButton) && bool_decide (is_Some (drawingImage g))
  then set_drawing false g
  else g.

(** Lines 136-142: the call of [cv::floodFill] for a double click at
    [p], on the working raster, with a new mask of zeros two pixels
    larger and the fill colour. *)
Definition fillAt (p : QPoint) (g : Generator) : FloodFill :=
  let point := QPoint_sub p (pos (drawingArea g)) in
  let x := qx point in
  let y := qy point in
  let page := coloringPage g in
  let mask := zeros (rows page + 2) (cols page + 2) CV_8U in
  let c := fillColor g in
  floodFill (imageOf g page) mask (x, y) [red c; green c; blue c].

(** Lines 134-153.  [cv::floodFill] works on [coloringPage] in place, so
    what it wrote is there whether it threw or not. *)
Definition mouseDoubleClickEvent (p : QPoint) (g : Generator) : Generator :=
  match drawingImage g with
  | Some _ =>
      if fillToolEnabled g then
        let r := fillAt p g in
        let g1 := exec (writeColoringPage (filled r)) g in
        match fault r with
        | None => exec (do _ <- wrapColoringPage; snapshotColoringPage) g1
        | Some what =>
            show (critical "Error" ("Failed to perform flood fill: " ++ what)) g1
        end
      else g
  | None => g
  end.

(** Lines 267-277; an empty path is a cancelled dialog. *)
Definition saveImage (savePath : string) (g : Generator) : Generator :=
  if bool_decide (savePath = "") then g
  else
    match drawingImage g with
    | Some img =>
        if save (qwidth img) (qheight img) (buffer g (bits img)) savePath
        then show (information "Success" "Image saved successfully.") g
        else show (critical "Error" "Failed to save the image.") g
    | None => show (critical "Error" "Failed to save the image.") g
    end.

(** Lines 281-287 *)
Definition setFillColor (color : QColor) (g : Generator) : Generator :=
  set_fillColor color g.

Definition toggleFillTool (checked : bool) (g : Generator) : Generator :=
  set_fillToolEnabled checked g.

(** Lines 289-296 *)
Definition undoLastAction (g : Generator) : Generator :=
  if (1 <? length (coloringPageHistory g))%nat then
    let history := removelast (coloringPageHistory g) in
    let back := List.last history (mkMat 0 0 CV_8U 0%nat) in
    exec (do copy <- clone back;
          do _ <- modify (set_coloringPage copy);
          wrapColoringPage)
         (set_coloringPageHistory history g)
  else g.

(** The events the widget receives: the mouse events, the results of the
    two file dialogs, the signals of the controls window, and a change of
    the geometry of the label by the layout. *)
Inductive Event :=
| MousePress (button : MouseButton) (p : QPoint)
| MouseMove (p : QPoint)
| MouseRelease (button : MouseButton) (p : QPoint)
| MouseDoubleClick (p : QPoint)
| Browse (imagePath : string)
| Save (savePath : string)
| ColorPicked (color : QColor)
| FillToggled (checked : bool)
| UndoAction
| Resized (area : QLabel).

Definition handle (e : Event) (g : Generator) : Generator :=
  match e with
  | MousePress b p => mousePressEvent b p g
  | MouseMove p => mouseMoveEvent p g
  | MouseRelease b p => mouseReleaseEvent b p g
  | MouseDoubleClick p => mouseDoubleClickEvent p g
  | Browse path => browseImage path g
  | Save path => saveImage path g
  | ColorPicked c => setFillColor c g
  | FillToggled b => toggleFillTool b g
  | UndoAction => undoLastAction g
  | Resized area => set_drawingArea area g
  end.

(** Events are handled one at a time, to completion. *)
Definition run (events : list Event) (g : Generator) : Generator :=
  fold_left (fun g e => handle e g) events g.

(** The raster as lines 193-242 leave it, before the gaps are repaired,
    with the thresholded image and the contours it was computed from. *)
Definition beforeRepair (image : Image) : M (Image * Image * list Contour) :=
  do r <- extractOutline image;
  let '(image, binaryImage, contours) := r in
  do _ <- intersectContours contours;
  do _ <- renderOutline image binaryImage;
  do page <- readColoringPage;
  ret (page, binaryImage, contours).

(** The mask of step 7 of the specification, in its words: the thresholded
    image of step 3 intersected with the filled and closed contours. *)
Definition intersectedMask (binaryImage : Image) (contours : list Contour) : Result Image :=
  match filledContours (size binaryImage) contours with
  | Ok contourMask =>
      match bitwise_and binaryImage contourMask with
      | Ok px => Ok (withPixels binaryImage px)
      | Throw e => Throw e
      end
  | Throw e => Throw e
  end.


End Program.

(** ** An executable instance of the libraries

    The handlers are run on concrete inputs with the functions below.  The
    arithmetic ones compute what the library documents (grey conversion,
    box-mean threshold with replicated border, rectangular dilation and
    erosion, shoelace area, flood fill of the 4-connected region of equal
    pixels).  Contour tracing, polygon drawing and inpainting are reduced to
    bounding boxes and the identity; they agree with the library on the
    rasters used below, where the traced shape is a full rectangle. *)

Module Reference.

Definition grid (w h : Z) : list Point :=
  y ← seqZ 0 h; x ← seqZ 0 w; [(x, y)].

Definition get (m : Image) (p : Point) : Pixel := default [] (pixelAt m p).

Definition clamp (lo hi v : Z) : Z := Z.max lo (Z.min hi v).

(** The pixel at [p], with the border replicated. *)
Definition getReplicated (m : Image) (p : Point) : Pixel :=
  get m (clamp 0 (icols m - 1) (fst p), clamp 0 (irows m - 1) (snd p)).

Definition onGrid (m : Image) (t : MatType) (f : Point -> Pixel) : Image :=
  {| irows := irows m; icols := icols m; itype := t;
     ipixels := map f (grid (icols m) (irows m)) |}.

Definition ref_resize (m : Image) (sz : Size) : Result Image :=
  let '(w, h) := sz in
  if (0 <? w) && (0 <? h) && negb (empty m) then
    Ok {| irows := h; icols := w; itype := itype m;
          ipixels := map (fun p => get m (fst p * icols m / w, snd p * irows m / h))
                       (grid w h) |}
  else Throw "resize: empty size".

Definition ref_cvtColor (m : Image) : Result Image :=
  match itype m with
  | CV_8UC3 =>
      Ok (onGrid m CV_8U (fun p =>
            match get m p with
            | [b; g; r] => [(r * 4899 + g * 9617 + b * 1868 + 8192) / 16384]
            | _ => [0]
            end))
  | CV_8U => Throw "cvtColor: channels"
  end.

Definition gray (m : Image) (p : Point) : Z := hd 0 (getReplicated m p).

Definition ref_adaptiveThreshold (m : Image) (maxValue blockSize C : Z) : Result Image :=
  if bool_decide (itype m = CV_8U) && Z.odd blockSize && (1 <? blockSize) then
    let r := blockSize / 2 in
    let window := grid blockSize blockSize in
    Ok (onGrid m CV_8U (fun p =>
          let sum := fold_right Z.add 0
                       (map (fun d => gray m (fst p + fst d - r, snd p + snd d - r)) window) in
          let mean := (2 * sum + blockSize * blockSize) / (2 * blockSize * blockSize) in
          if gray m p >? mean - C then [0] else [saturate maxValue]))
  else Throw "adaptiveThreshold: type or block size".

(** The extreme of the pixels under a rectangular kernel anchored at its
    centre; pixels outside the image do not count. *)
Definition morph (pick : Z -> Z -> Z) (m : Image) (k : Size) : Result Image :=
  if (0 <? fst k) && (0 <? snd k) then
    Ok (onGrid m (itype m) (fun p =>
          fold_right (fun d acc =>
              let q := (fst p + fst d - fst k / 2, snd p + snd d - snd k / 2) in
              match pixelAt m q with
              | Some v => zip_with pick v acc
              | None => acc
              end) (get m p) (grid (fst k) (snd k))))
  else Throw "morph: kernel".

Definition ref_dilate := morph Z.max.
Definition ref_erode := morph Z.min.

Definition ref_morphologyEx (m : Image) (k : Size) : Result (list Pixel) :=
  match ref_dilate m k with
  | Ok d => match ref_erode d k with
            | Ok e => Ok (ipixels e)
            | Throw w => Throw w
            end
  | Throw w => Throw w
  end.

Definition minimum (l : list Z) : Z := fold_right Z.min (hd 0 l) l.
Definition maximum (l : list Z) : Z := fold_right Z.max (hd 0 l) l.

Definition box (ps : list Point) : list Point :=
  match ps with
  | [] => []
  | _ =>
      let x0 := minimum (map fst ps) in let x1 := maximum (map fst ps) in
      let y0 := minimum (map snd ps) in let y1 := maximum (map snd ps) in
      if (x0 =? x1) && (y0 =? y1) then [(x0, y0)]
      else [(x0, y0); (x0, y1); (x1, y1); (x1, y0)]
  end.

(** The outline of the bounding box of the foreground. *)
Definition ref_findContours (m : Image) : Result (list Contour) :=
  match box (List.filter (fun p => nonzero (get m p)) (grid (icols m) (irows m))) with
  | [] => Ok []
  | c => Ok [c]
  end.

Fixpoint shoelace (first prev : Point) (ps : list Point) : Z :=
  match ps with
  | [] => fst prev * snd first - fst first * snd prev
  | p :: ps' => fst prev * snd p - fst p * snd prev + shoelace first p ps'
  end.

Definition ref_contourArea (c : Contour) : Q :=
  match c with
  | [] => 0%Q
  | p :: ps => (Z.abs (shoelace p p ps) # 2)%Q
  end.

Definition inBox (c : Contour) (p : Point) : bool :=
  match c with
  | [] => false
  | _ =>
      (minimum (map fst c) <=? fst p) && (fst p <=? maximum (map fst c)) &&
      (minimum (map snd c) <=? snd p) && (snd p <=? maximum (map snd c))
  end.

(** Paints the bounding box of the contour. *)
Definition ref_drawContours (m : Image) (c : Contour) (color : Scalar)
    (thickness : Z) (lt : LineType) : Result (list Pixel) :=
  Ok (map (fun p => if inBox c p then scalarPixel (itype m) color else get m p)
        (grid (icols m) (irows m))).

Definition ref_inpaint (m mask : Image) (radius : Z) : Result (list Pixel) :=
  if sameSize m mask then Ok (ipixels m) else Throw "inpaint: mask size".

Definition neighbours (p : Point) : list Point :=
  [(fst p + 1, snd p); (fst p - 1, snd p); (fst p, snd p + 1); (fst p, snd p - 1)].

Definition Pixel_eqb (a b : Pixel) : bool := bool_decide (a = b).

Definition member (p : Point) (ps : list Point) : bool :=
  existsb (fun q => bool_decide (p = q)) ps.

(** One round of region growing: the pixels next to the region that
    equal the neighbour they touch. *)
Definition grow (m : Image) (region : list Point) : list Point :=
  region ++
  List.filter (fun p =>
      inside m p && negb (member p region) &&
      existsb (fun q => member q region && Pixel_eqb (get m p) (get m q)) (neighbours p))
    (grid (icols m) (irows m)).

Fixpoint region (m : Image) (fuel : nat) (r : list Point) : list Point :=
  match fuel with
  | O => r
  | S n => region m n (grow m r)
  end.

(** The point whose pixel is the [i]-th of the buffer. *)
Definition pointOf (m : Image) (i : nat) : Point :=
  (Z.of_nat i mod icols m, Z.of_nat i / icols m).

Definition ref_floodFill (m mask : Image) (seed : Point) (newVal : Scalar) : FloodFill :=
  match pixelAt m seed with
  | Some _ =>
      let r := region m (length (ipixels m)) [seed] in
      {| filled := imap (fun i px => if member (pointOf m i) r
                                     then scalarPixel (itype m) newVal else px)
                     (ipixels m);
         fault := None |}
  | None => {| filled := ipixels m; fault := Some "Seed point is outside of image" |}
  end.

(** The pixels of the segment from [a] to [b], stepping along the longer
    axis. *)
Definition segment (a b : QPoint) : list Point :=
  let dx := qx b - qx a in
  let dy := qy b - qy a in
  let n := Z.max (Z.abs dx) (Z.abs dy) in
  if n =? 0 then [(qx a, qy a)]
  else map (fun k => (qx a + (2 * k * dx + n) / (2 * n), qy a + (2 * k * dy + n) / (2 * n)))
         (seqZ 0 (n + 1)).

Definition ref_drawLine (w h : Z) (px : list Pixel) (c : QColor) (a b : QPoint) : list Pixel :=
  let m := mkImage h w CV_8UC3 px in
  map (fun p => if member p (segment a b) then [red c; green c; blue c] else get m p)
    (grid w h).

(** A white 3x3 photo with one dark pixel in the middle. *)
Definition speck : Image :=
  let w := [255; 255; 255] in
  mkImage 3 3 CV_8UC3 [w; w; w; w; [0; 0; 0]; w; w; w; w].

Definition ref_imread (path : string) : Image :=
  if bool_decide (path = "speck.png") then speck else mkImage 0 0 CV_8UC3 [].

Global Instance cv : OpenCV := {|
  imread := ref_imread;
  resize := ref_resize;
  cvtColor := ref_cvtColor;
  adaptiveThreshold := ref_adaptiveThreshold;
  dilate := ref_dilate;
  erode := ref_erode;
  findContours := ref_findContours;
  contourArea := ref_contourArea;
  approxPolyDP := fun c _ _ => Ok c;
  drawContours := ref_drawContours;
  morphologyEx := ref_morphologyEx;
  inpaint := ref_inpaint;
  floodFill := ref_floodFill
|}.

Global Instance qt : Qt := {|
  drawLine := ref_drawLine;
  save := fun _ _ _ _ => true
|}.

(** A label of 3x3 pixels at the origin of the window. *)
Definition area : QLabel := mkQLabel (mkQPoint 0 0) 3 3.

Definition start : Generator := init area true.

End Reference.

(** The flood fill of the instance meets the contract. *)

Lemma member_spec (p : Point) (ps : list Point) :
  Reference.member p ps = true <-> In p ps.
Proof.
  unfold Reference.member. rewrite existsb_exists. split.
  - intros (q & Hq & E). apply bool_decide_eq_true in E. by subst.
  - intros Hp. exists p. split; [done|]. by apply bool_decide_eq_true.
Qed.

Lemma region_grows m fuel r p :
  In p r -> In p (Reference.region m fuel r).
Proof.
  revert r. induction fuel as [|n IH]; intros r Hp; simpl; [done|].
  apply IH. unfold Reference.grow. apply in_app_iff. by left.
Qed.

(** Every pixel of the region is inside the image and equal to the
    seed. *)
Lemma region_uniform m c fuel r :
  (forall q, In q r -> inside m q = true /\ Reference.get m q = c) ->
  forall q, In q (Reference.region m fuel r) ->
    inside m q = true /\ Reference.get m q = c.
Proof.
  revert r. induction fuel as [|n IH]; intros r Hr q Hq; simpl in Hq.
  - by apply Hr.
  - apply (IH (Reference.grow m r)); [|done].
    intros q' Hq'. unfold Reference.grow in Hq'.
    apply in_app_iff in Hq' as [Hq'|Hq']; [by apply Hr|].
    apply filter_In in Hq' as [_ Hc].
    apply andb_true_iff in Hc as [Hc He].
    apply andb_true_iff in Hc as [Hi _]. split; [done|].
    apply existsb_exists in He as (n' & _ & Hn).
    apply andb_true_iff in Hn as [Hm Hn].
    apply member_spec, Hr in Hm as [_ <-].
    unfold Reference.Pixel_eqb in Hn. by apply bool_decide_eq_true in Hn.
Qed.

Lemma pointOf_offset m p :
  inside m p = true -> Reference.pointOf m (offset m p) = p.
Proof.
  unfold inside, Reference.pointOf, offset. destruct p as [x y]. simpl.
  rewrite !andb_true_iff, !Z.leb_le, !Z.ltb_lt. intros [[[Hx0 Hx] Hy0] Hy].
  rewrite Z2Nat.id by nia. f_equal.
  - rewrite Z.add_comm, Z_mod_plus_full. by apply Z.mod_small.
  - rewrite Z.div_add_l by lia. rewrite Z.div_small by lia. lia.
Qed.

Lemma offset_pointOf m i :
  inside m (Reference.pointOf m i) = true ->
  offset m (Reference.pointOf m i) = i.
Proof.
  unfold inside, Reference.pointOf, offset. simpl.
  rewrite !andb_true_iff, !Z.leb_le, !Z.ltb_lt. intros [[[Hx0 Hx] Hy0] Hy].
  rewrite (Z.mul_comm _ (icols m)), <- Z.div_mod by lia. apply Nat2Z.id.
Qed.

Lemma ref_floodFill_contract : FloodFillContract Reference.cv.
Proof.
  split; simpl; unfold Reference.ref_floodFill; intros m mask seed v.
  - intros what. by destruct (pixelAt m seed).
  - destruct (pixelAt m seed) as [c|] eqn:Es; [|done]. intros _. simpl.
    unfold pixelAt in *. simpl.
    replace (inside (withPixels m _) seed) with (inside m seed) by done.
    destruct (inside m seed) eqn:Ei; [|done].
    replace (offset (withPixels m _) seed) with (offset m seed) by done.
    rewrite list_lookup_imap, Es. simpl.
    rewrite pointOf_offset by done.
    replace (Reference.member seed _) with true; [done|].
    symmetry. apply member_spec, region_grows. by left.
  - intros i. destruct (pixelAt m seed) as [c|] eqn:Es; [|done]. intros _. simpl.
    rewrite list_lookup_imap.
    destruct (ipixels m !! i) as [px|] eqn:Ep; simpl; [|by left].
    destruct (Reference.member _ _) eqn:Em; [|by left]. right. split; [done|].
    apply member_spec in Em.
    apply (region_uniform m c) in Em as [Hi Hg].
    + unfold Reference.get, pixelAt in Hg. rewrite Hi in Hg.
      rewrite offset_pointOf, Ep in Hg by done. simpl in Hg. by subst.
    + intros q [<-|[]]. unfold Reference.get. rewrite Es.
      split; [|done]. unfold pixelAt in Es. by destruct (inside m seed).
Qed.

(** ** Invariants of the store *)

Section Invariants.

Context {cv : OpenCV} {qt : Qt}.

(** The bytes of the snapshots on the history stack, oldest first. *)
Definition snapshots (g : Generator) : list Image :=
  map (imageOf g) (coloringPageHistory g).

(** The working raster: the bytes [coloringPage] points at. *)
Definition workingRaster (g : Generator) : Image :=
  imageOf g (coloringPage g).

Definition historyLocs (g : Generator) : list loc :=
  map data (coloringPageHistory g).

(** Every snapshot has a buffer of its own, which neither [coloringPage]
    nor [drawingImage] points at. *)
Record Inv (g : Generator) : Prop := {
  inv_history : Forall (fun l => (l < next g)%nat) (historyLocs g);
  inv_nodup : NoDup (historyLocs g);
  inv_page : data (coloringPage g) ∉ historyLocs g;
  inv_page_lt : (data (coloringPage g) < next g)%nat;
  inv_image : forall img, drawingImage g = Some img ->
                (bits img ∉ historyLocs g) /\ (bits img < next g)%nat
}.

(** There is a snapshot only once there is an image. *)
Definition Loaded (g : Generator) : Prop :=
  drawingImage g = None -> coloringPageHistory g = [].

(** What a computation that does not touch the history leaves as it
    was. *)
Record frame (g g' : Generator) : Prop := {
  fr_history : coloringPageHistory g' = coloringPageHistory g;
  fr_image : drawingImage g' = drawingImage g;
  fr_heap : forall l, l ∈ historyLocs g -> heap g' !! l = heap g !! l
}.

Lemma frame_refl g : frame g g.
Proof. by split. Qed.

Lemma frame_trans g1 g2 g3 : frame g1 g2 -> frame g2 g3 -> frame g1 g3.
Proof.
  intros [H1 I1 A1] [H2 I2 A2]. split.
  - by rewrite H2.
  - by rewrite I2.
  - intros l Hl. rewrite A2; [by apply A1|].
    unfold historyLocs in *. by rewrite H1.
Qed.

Lemma frame_snapshots g g' : frame g g' -> snapshots g' = snapshots g.
Proof.
  intros [H _ A]. unfold snapshots. rewrite H.
  apply map_ext_in. intros m Hm. unfold imageOf, buffer.
  rewrite A; [done|]. unfold historyLocs.
  apply list_elem_of_In, in_map, Hm.
Qed.

Definition stable {A} (m : M A) : Prop :=
  forall g, Inv g -> Inv (snd (m g)) /\ frame g (snd (m g)).

Lemma stable_ret {A} (a : A) : stable (ret a).
Proof. intros g Hg. split; [done | apply frame_refl]. Qed.

Lemma stable_call {A} (r : Result A) : stable (call r).
Proof. intros g Hg. split; [done | apply frame_refl]. Qed.

Lemma stable_gets {A} (f : Generator -> A) : stable (gets f).
Proof. intros g Hg. split; [done | apply frame_refl]. Qed.

Lemma stable_bind {A B} (m : M A) (f : A -> M B) :
  stable m -> (forall a, stable (f a)) -> stable (bind m f).
Proof.
  intros Hm Hf g Hg. unfold bind.
  destruct (Hm g Hg) as [I1 F1]. destruct (m g) as [[a|e] g1]; simpl in *.
  - destruct (Hf a g1 I1) as [I2 F2]. split; [done|]. by eapply frame_trans.
  - done.
Qed.

Lemma stable_forEach {A B} (f : A -> M B) (l : list A) :
  (forall a, stable (f a)) -> stable (forEach f l).
Proof.
  intros Hf. induction l as [|a l IH]; simpl.
  - apply stable_ret.
  - apply stable_bind; [apply Hf|]. intros b.
    apply stable_bind; [apply IH|]. intros bs. apply stable_ret.
Qed.

Lemma stable_setFixedSize w h : stable (modify (setFixedSize w h)).
Proof. intros g [H1 H2 H3 H4 H5]. split; by split. Qed.

Lemma stable_assignColoringPage value : stable (assignColoringPage value).
Proof.
  intros g [H1 H2 H3 H4 H5]. split; split; simpl; try done.
  - eapply Forall_impl; [exact H1|]. simpl. lia.
  - intros Hin. rewrite Forall_forall in H1. apply H1 in Hin. lia.
  - lia.
  - intros img Himg. destruct (H5 img Himg). split; [done | lia].
  - intros l Hl. rewrite Forall_forall in H1. apply H1 in Hl.
    apply lookup_insert_ne. lia.
Qed.

Lemma stable_writeColoringPage px : stable (writeColoringPage px).
Proof.
  intros g [H1 H2 H3 H4 H5]. split; split; simpl; try done.
  intros l Hl. apply lookup_insert_ne. intros E. apply H3. by rewrite E.
Qed.

Ltac stability :=
  repeat first
    [ apply stable_ret | apply stable_call | apply stable_gets
    | apply stable_setFixedSize | apply stable_assignColoringPage
    | apply stable_writeColoringPage
    | apply stable_forEach; intros ?
    | apply stable_bind; [| intros ?] ].

Lemma stable_postProcessContours contours area eps thickness :
  stable (postProcessContours contours area eps thickness).
Proof. unfold postProcessContours, readColoringPage. stability. Qed.

Lemma stable_extractOutline image : stable (extractOutline image).
Proof.
  unfold extractOutline, readColoringPage. stability.
  destruct (targetSize _ _ _ _) as [newWidth newHeight]. stability.
Qed.

Lemma stable_intersectContours contours : stable (intersectContours contours).
Proof. unfold intersectContours, readColoringPage. stability. Qed.

Lemma stable_renderOutline image binaryImage :
  stable (renderOutline image binaryImage).
Proof. unfold renderOutline, readColoringPage. stability. Qed.

Lemma stable_repairGaps contours : stable (repairGaps contours).
Proof.
  unfold repairGaps, readColoringPage. stability.
  destruct (Qltb _ _); stability.
Qed.

(** The state a snapshot leaves: two buffers are allocated, the clone
    passed to [addToColoringPageHistory] and the clone it pushes. *)
Lemma snapshotColoringPage_eq g :
  snapshotColoringPage g =
    (Ok tt,
     let px := buffer g (data (coloringPage g)) in
     let page := coloringPage g in
     set_coloringPageHistory
       (coloringPageHistory g ++ [mkMat (rows page) (cols page) (type page) (S (next g))])
       (set_next (S (S (next g)))
          (set_heap (<[S (next g) := px]> (<[next g := px]> (heap g))) g))).
Proof.
  unfold snapshotColoringPage, addToColoringPageHistory, clone, bind, gets,
    alloc, ret, modify, buffer. simpl. rewrite lookup_insert_eq. reflexivity.
Qed.

Lemma snapshot_Inv g : Inv g -> Inv (exec snapshotColoringPage g).
Proof.
  intros [H1 H2 H3 H4 H5]. unfold exec. rewrite snapshotColoringPage_eq.
  split; unfold historyLocs in *; simpl.
  - rewrite map_app, Forall_app. split.
    + rewrite Forall_forall in *. intros l Hl. apply H1 in Hl. lia.
    + simpl. apply Forall_singleton. lia.
  - rewrite map_app. apply NoDup_app. split; [done|]. split.
    + intros l Hl. rewrite Forall_forall in H1. apply H1 in Hl.
      simpl. rewrite list_elem_of_singleton. lia.
    + apply NoDup_singleton.
  - rewrite map_app, elem_of_app. simpl. rewrite list_elem_of_singleton.
    intros [?|?]; [done | lia].
  - lia.
  - intros img Himg. destruct (H5 img Himg) as [Hn Hlt]. split; [|lia].
    rewrite map_app, elem_of_app. simpl. rewrite list_elem_of_singleton.
    intros [?|?]; [done | lia].
Qed.

(** A snapshot adds the bytes of the working raster on top of the
    snapshots, which stay as they were, and the working raster stays as
    it was. *)
Lemma snapshot_snapshots g :
  Inv g ->
  snapshots (exec snapshotColoringPage g) = snapshots g ++ [workingRaster g] /\
  workingRaster (exec snapshotColoringPage g) = workingRaster g.
Proof.
  intros [H1 H2 H3 H4 H5]. unfold exec. rewrite snapshotColoringPage_eq.
  unfold snapshots, workingRaster, historyLocs in *. simpl. split.
  - rewrite map_app. f_equal.
    + apply map_ext_in. intros m Hm. unfold imageOf, buffer. simpl.
      rewrite Forall_forall in H1.
      assert (data m < next g)%nat
        by (apply H1, list_elem_of_In, in_map, Hm).
      rewrite !lookup_insert_ne by lia. done.
    + simpl. unfold imageOf, buffer. simpl. by rewrite lookup_insert_eq.
  - unfold imageOf, buffer. simpl. rewrite !lookup_insert_ne by lia. done.
Qed.


Lemma stable_outline image : stable (outline image).
Proof.
  unfold outline. apply stable_bind; [apply stable_extractOutline|].
  intros [[image' binaryImage] contours].
  apply stable_bind; [apply stable_intersectContours|]. intros _.
  apply stable_bind; [apply stable_renderOutline|]. intros _.
  apply stable_bind; [apply stable_repairGaps|]. intros _.
  apply stable_ret.
Qed.

Lemma publish_eq image g :
  publish image g =
    (Ok tt, setFixedSize (icols image) (irows image)
              (exec wrapColoringPage (exec snapshotColoringPage g))).
Proof.
  unfold publish, bind, exec. rewrite snapshotColoringPage_eq. reflexivity.
Qed.

Lemma wrap_Inv g : Inv g -> Inv (exec wrapColoringPage g).
Proof.
  intros [H1 H2 H3 H4 H5]. split; try done.
  simpl. intros img [= <-]. done.
Qed.

Lemma publish_Inv image g : Inv g -> Inv (exec (publish image) g).
Proof.
  intros Hg. unfold exec at 1. rewrite publish_eq. simpl.
  apply snapshot_Inv, wrap_Inv in Hg. destruct Hg as [H1 H2 H3 H4 H5].
  by split.
Qed.

(** A successful run of the pipeline is a run of [outline], which leaves
    the history alone, followed by [publish]. *)
Lemma pipeline_Ok image g g' :
  Inv g -> pipeline image g = (Ok tt, g') ->
  exists image' g1,
    outline image g = (Ok image', g1) /\ Inv g1 /\ frame g g1 /\
    g' = exec (publish image') g1.
Proof.
  intros Hg. unfold pipeline, bind.
  destruct (stable_outline image g Hg) as [I1 F1].
  destruct (outline image g) as [[image'|e] g1]; [|done].
  intros E. exists image', g1. unfold exec. rewrite E. done.
Qed.

Lemma pipeline_Throw image g g' what :
  Inv g -> pipeline image g = (Throw what, g') -> Inv g' /\ frame g g'.
Proof.
  intros Hg. unfold pipeline, bind.
  destruct (stable_outline image g Hg) as [I1 F1].
  destruct (outline image g) as [[image'|e] g1].
  - rewrite publish_eq. done.
  - intros [= _ <-]. done.
Qed.

Definition Good (g : Generator) : Prop := Inv g /\ Loaded g.

(** [Good] looks at the history, the two pointers to the working raster
    and the allocation pointer only. *)
Lemma Good_ext g g' :
  coloringPageHistory g' = coloringPageHistory g ->
  coloringPage g' = coloringPage g ->
  drawingImage g' = drawingImage g ->
  next g' = next g ->
  Good g -> Good g'.
Proof.
  intros Eh Ep Ei En [[H1 H2 H3 H4 H5] H6].
  split; [split|]; unfold Loaded, historyLocs in *;
    rewrite ?Eh, ?Ep, ?Ei, ?En; done.
Qed.

Lemma Good_init area fillTool : Good (init area fillTool).
Proof.
  split; [|done]. split; simpl; try done.
  - constructor.
  - apply not_elem_of_nil.
  - lia.
Qed.

Lemma Good_show m g : Good g -> Good (show m g).
Proof. by apply Good_ext. Qed.

Lemma Good_generateColoringPage path g :
  Good g -> Good (generateColoringPage path g).
Proof.
  intros Hg. unfold generateColoringPage.
  destruct (empty _); [by apply Good_show|].
  destruct (pipeline (imread path) g) as [[[]|what] g'] eqn:E.
  - destruct Hg as [Hg _].
    destruct (pipeline_Ok _ _ _ Hg E) as (image' & g1 & _ & I1 & _ & ->).
    split; [by apply publish_Inv|].
    unfold exec, Loaded. rewrite publish_eq. done.
  - apply Good_show. destruct Hg as [Hg Hl].
    destruct (pipeline_Throw _ _ _ _ Hg E) as [I [Fh Fi _]].
    split; [done|]. unfold Loaded. rewrite Fh, Fi. done.
Qed.

Lemma Good_mouseMoveEvent p g : Good g -> Good (mouseMoveEvent p g).
Proof.
  intros Hg. unfold mouseMoveEvent.
  destruct (drawingImage g) as [img|] eqn:E; [|done].
  destruct (drawing g); [|done]. destruct (rect_contains _ _); [|done].
  revert Hg. by apply Good_ext.
Qed.

Lemma exec_wrap_snapshot g :
  exec (do _ <- wrapColoringPage; snapshotColoringPage) g =
  exec snapshotColoringPage (exec wrapColoringPage g).
Proof. reflexivity. Qed.

Lemma Good_mouseDoubleClickEvent p g :
  Good g -> Good (mouseDoubleClickEvent p g).
Proof.
  intros Hg. unfold mouseDoubleClickEvent.
  destruct (drawingImage g) as [img|] eqn:E; [|done].
  destruct (fillToolEnabled g); [|done].
  set (r := fillAt p g).
  assert (Good (exec (writeColoringPage (filled r)) g)) as Hw
    by (revert Hg; by apply Good_ext).
  destruct (fault r); [by apply Good_show|].
  destruct Hw as [Hw _]. rewrite exec_wrap_snapshot.
  split.
  - apply snapshot_Inv, wrap_Inv, Hw.
  - unfold Loaded, exec at 1. rewrite snapshotColoringPage_eq. done.
Qed.

Lemma Good_undoLastAction g : Good g -> Good (undoLastAction g).
Proof.
  intros Hg. unfold undoLastAction.
  destruct (1 <? length _)%nat eqn:E; [|done].
  apply Nat.ltb_lt in E.
  destruct Hg as [[H1 H2 H3 H4 H5] _]. unfold historyLocs in *.
  destruct (coloringPageHistory g) as [|m h] eqn:Eh using rev_ind;
    [simpl in E; lia|]. clear IHh.
  rewrite removelast_last.
  rewrite map_app, Forall_app in H1. destruct H1 as [H1 _].
  rewrite map_app in H2. apply NoDup_app in H2. destruct H2 as [H2 _].
  split; [|done]. rewrite Forall_forall in H1.
  split; unfold historyLocs; simpl; try done.
  - rewrite Forall_forall. intros l Hl. apply H1 in Hl. lia.
  - intros Hl. apply H1 in Hl. lia.
  - lia.
  - intros img [= <-]. simpl. split; [|lia].
    intros Hl. apply H1 in Hl. lia.
Qed.

Lemma Good_handle e g : Good g -> Good (handle e g).
Proof.
  intros Hg. destruct e; simpl.
  - unfold mousePressEvent. destruct (_ && _); [|done].
    revert Hg. by apply Good_ext.
  - by apply Good_mouseMoveEvent.
  - unfold mouseReleaseEvent. destruct (_ && _); [|done].
    revert Hg. by apply Good_ext.
  - by apply Good_mouseDoubleClickEvent.
  - unfold browseImage. case_bool_decide; [done|].
    by apply Good_generateColoringPage.
  - unfold saveImage. case_bool_decide; [done|].
    destruct (drawingImage g); [destruct (save _ _ _ _)|]; by apply Good_show.
  - revert Hg. by apply Good_ext.
  - revert Hg. by apply Good_ext.
  - by apply Good_undoLastAction.
  - revert Hg. by apply Good_ext.
Qed.

Lemma Good_run events g : Good g -> Good (run events g).
Proof.
  revert g. induction events as [|e events IH]; intros g Hg; [done|].
  simpl. apply IH, Good_handle, Hg.
Qed.

(** The states the widget can be in: those a sequence of events leads
    to from the state the constructor leaves. *)
Definition reachable (g : Generator) : Prop :=
  exists area fillTool events, g = run events (init area fillTool).

Lemma reachable_Good g : reachable g -> Good g.
Proof. intros (area & fillTool & events & ->). apply Good_run, Good_init. Qed.

Lemma reachable_handle e g : reachable g -> reachable (handle e g).
Proof.
  intros (area & fillTool & events & ->).
  exists area, fillTool, (events ++ [e]). unfold run.
  by rewrite fold_left_app.
Qed.

Lemma reachable_run events g : reachable g -> reachable (run events g).
Proof.
  revert g. induction events as [|e events IH]; intros g Hg; [done|].
  simpl. apply IH, reachable_handle, Hg.
Qed.


(** ** Commits, undo and drawing on the store *)

(** The double click at [p] reaches [cv::floodFill] and the call
    returns. *)
Definition commits (p : QPoint) (g : Generator) : Prop :=
  is_Some (drawingImage g) /\ fillToolEnabled g = true /\
  fault (fillAt p g) = None.

(** The photo at [path] is read and the pipeline runs to its end. *)
Definition generates (path : string) (g : Generator) : Prop :=
  empty (imread path) = false /\ fst (pipeline (imread path) g) = Ok tt.

(** The state is as a commit leaves it: the top snapshot holds the bytes
    of the working raster. *)
Definition JustCommitted (g : Generator) : Prop :=
  last (snapshots g) = Some (workingRaster g).

Lemma fill_commit p g :
  commits p g ->
  mouseDoubleClickEvent p g =
    exec snapshotColoringPage
      (exec wrapColoringPage (exec (writeColoringPage (filled (fillAt p g))) g)).
Proof.
  intros ([img Himg] & Ht & Hf). unfold mouseDoubleClickEvent.
  rewrite Himg, Ht, Hf. apply exec_wrap_snapshot.
Qed.

Lemma write_wrap_Inv px g :
  Inv g -> Inv (exec wrapColoringPage (exec (writeColoringPage px) g)).
Proof.
  intros Hg. apply wrap_Inv. by destruct (stable_writeColoringPage px g Hg).
Qed.

Lemma write_wrap_snapshots px g :
  Inv g ->
  snapshots (exec wrapColoringPage (exec (writeColoringPage px) g)) = snapshots g.
Proof.
  intros Hg. destruct (stable_writeColoringPage px g Hg) as [_ F].
  apply frame_snapshots in F. exact F.
Qed.

(** A fill that commits pushes the bytes of the filled raster and leaves
    the snapshots below as they were. *)
Lemma fill_commit_snapshots p g :
  Inv g -> commits p g ->
  snapshots (mouseDoubleClickEvent p g) =
    snapshots g ++ [workingRaster (mouseDoubleClickEvent p g)] /\
  length (coloringPageHistory (mouseDoubleClickEvent p g)) =
    S (length (coloringPageHistory g)).
Proof.
  intros Hg Hc. rewrite (fill_commit _ _ Hc).
  set (px := filled (fillAt p g)).
  pose proof (write_wrap_Inv px g Hg) as I2.
  destruct (snapshot_snapshots _ I2) as [Es Ew]. rewrite Es, Ew.
  rewrite write_wrap_snapshots by done. split; [done|].
  unfold exec at 1. rewrite snapshotColoringPage_eq. simpl.
  rewrite length_app. simpl. lia.
Qed.

Lemma fill_commit_JustCommitted p g :
  Inv g -> commits p g -> JustCommitted (mouseDoubleClickEvent p g).
Proof.
  intros Hg Hc. unfold JustCommitted.
  destruct (fill_commit_snapshots p g Hg Hc) as [-> _]. apply last_snoc.
Qed.

Lemma generate_Ok path g :
  Inv g -> generates path g ->
  exists image' g1,
    outline (imread path) g = (Ok image', g1) /\ Inv g1 /\ frame g g1 /\
    generateColoringPage path g = exec (publish image') g1.
Proof.
  intros Hg [He Hp]. unfold generateColoringPage. rewrite He.
  destruct (pipeline (imread path) g) as [r g'] eqn:E. simpl in Hp. subst r.
  destruct (pipeline_Ok _ _ _ Hg E) as (image' & g1 & Ho & I1 & F1 & ->).
  by exists image', g1.
Qed.

Lemma publish_snapshots image g :
  Inv g ->
  snapshots (exec (publish image) g) = snapshots g ++ [workingRaster g] /\
  workingRaster (exec (publish image) g) = workingRaster g /\
  coloringPageHistory (exec (publish image) g) =
    coloringPageHistory (exec snapshotColoringPage g).
Proof.
  intros Hg. unfold exec at 1 3 4. rewrite publish_eq.
  destruct (snapshot_snapshots g Hg) as [Es Ew]. by rewrite <- Es, <- Ew.
Qed.

Lemma generate_JustCommitted path g :
  Inv g -> generates path g -> JustCommitted (generateColoringPage path g).
Proof.
  intros Hg Hgen.
  destruct (generate_Ok path g Hg Hgen) as (image' & g1 & _ & I1 & _ & ->).
  unfold JustCommitted.
  destruct (publish_snapshots image' g1 I1) as (-> & -> & _). apply last_snoc.
Qed.

(** The state an undo leaves when there are two snapshots or more. *)
Lemma undoLastAction_eq g h back top :
  coloringPageHistory g = h ++ [back; top] ->
  undoLastAction g =
    let copy := mkMat (rows back) (cols back) (type back) (next g) in
    set_drawingImage
      (Some (mkQImage (next g) (cols back) (rows back)
               (cols back * Z.of_nat (channels (type back)))))
      (set_coloringPage copy
         (set_next (S (next g))
            (set_heap (<[next g := buffer g (data back)]> (heap g))
               (set_coloringPageHistory (h ++ [back]) g)))).
Proof.
  intros E. unfold undoLastAction. rewrite E.
  replace (1 <? length (h ++ [back; top]))%nat with true
    by (symmetry; apply Nat.ltb_lt; rewrite length_app; simpl; lia).
  replace (h ++ [back; top]) with ((h ++ [back]) ++ [top])
    by (by rewrite <- app_assoc).
  rewrite removelast_last, last_last. reflexivity.
Qed.

Lemma two_or_more {A} (l : list A) :
  (1 < length l)%nat -> exists h back top, l = h ++ [back; top].
Proof.
  intros Hl. destruct l as [|top l] using rev_ind; [simpl in Hl; lia|].
  clear IHl. destruct l as [|back l] using rev_ind.
  - simpl in Hl. lia.
  - exists l, back, top. by rewrite <- app_assoc.
Qed.

(** An undo with two snapshots or more removes the top one; the working
    raster becomes a copy of the new top in a buffer of its own, and the
    snapshots that are left stay as they were. *)
Lemma undo_effective g :
  Inv g -> (1 < length (coloringPageHistory g))%nat ->
  coloringPageHistory (undoLastAction g) = removelast (coloringPageHistory g) /\
  snapshots (undoLastAction g) = removelast (snapshots g) /\
  JustCommitted (undoLastAction g).
Proof.
  intros [H1 H2 H3 H4 H5] Hl.
  destruct (two_or_more _ Hl) as (h & back & top & E).
  pose proof (undoLastAction_eq g h back top E) as Eu. simpl in Eu.
  set (g' := undoLastAction g) in *.
  assert (coloringPageHistory g' = h ++ [back]) as Eh by (by rewrite Eu).
  assert (coloringPage g' = mkMat (rows back) (cols back) (type back) (next g))
    as Ep by (by rewrite Eu).
  assert (heap g' = <[next g := buffer g (data back)]> (heap g))
    as Ea by (by rewrite Eu).
  clearbody g'. clear Eu.
  assert ((h ++ [back; top]) = (h ++ [back]) ++ [top]) as Eapp
    by (by rewrite <- app_assoc).
  unfold JustCommitted, snapshots, workingRaster, historyLocs in *.
  rewrite E, Eapp in *. rewrite Eh, Ep.
  rewrite map_app, Forall_app in H1. destruct H1 as [H1 _].
  rewrite Forall_forall in H1.
  assert (map (imageOf g') (h ++ [back]) = map (imageOf g) (h ++ [back])) as Em.
  { apply map_ext_in. intros m Hm. unfold imageOf, buffer. rewrite Ea.
    assert (data m < next g)%nat by (apply H1, list_elem_of_In, in_map, Hm).
    rewrite lookup_insert_ne by lia. done. }
  rewrite Em, (map_app _ (h ++ [back]) [top]). simpl.
  rewrite !removelast_last. split; [done|]. split; [done|].
  rewrite map_app. simpl. rewrite last_snoc.
  f_equal. unfold imageOf, buffer. rewrite Ea. simpl.
  by rewrite lookup_insert_eq.
Qed.

(** Undo with one snapshot or none does nothing. *)
Lemma undo_noop g :
  (length (coloringPageHistory g) <= 1)%nat -> undoLastAction g = g.
Proof.
  intros Hl. unfold undoLastAction.
  replace (1 <? _)%nat with false; [done|].
  symmetry. apply Nat.ltb_ge. lia.
Qed.

(** Drawing writes through [drawingImage] only. *)
Lemma mouseMoveEvent_snapshots p g :
  Inv g ->
  coloringPageHistory (mouseMoveEvent p g) = coloringPageHistory g /\
  snapshots (mouseMoveEvent p g) = snapshots g.
Proof.
  intros [H1 H2 H3 H4 H5]. unfold mouseMoveEvent.
  destruct (drawingImage g) as [img|] eqn:E; [|done].
  destruct (drawing g); [|done]. destruct (rect_contains _ _); [|done].
  split; [done|]. unfold snapshots. simpl.
  apply map_ext_in. intros m Hm. unfold imageOf, buffer. simpl.
  destruct (H5 img eq_refl) as [Hn _].
  rewrite lookup_insert_ne; [done|]. intros Eb. apply Hn. rewrite Eb.
  unfold historyLocs. apply list_elem_of_In, in_map, Hm.
Qed.


(** The double clicks at [ps], one after the other. *)
Definition fills (ps : list QPoint) (g : Generator) : Generator :=
  fold_left (fun g p => mouseDoubleClickEvent p g) ps g.

(** Each of them commits. *)
Fixpoint allCommit (ps : list QPoint) (g : Generator) : Prop :=
  match ps with
  | [] => True
  | p :: ps' => commits p g /\ allCommit ps' (mouseDoubleClickEvent p g)
  end.

Lemma allCommit_snoc ps p g :
  allCommit (ps ++ [p]) g <-> allCommit ps g /\ commits p (fills ps g).
Proof.
  revert g. induction ps as [|q ps IH]; intros g; simpl.
  - tauto.
  - rewrite IH. tauto.
Qed.

Lemma fill_commit_Inv p g :
  Inv g -> commits p g -> Inv (mouseDoubleClickEvent p g).
Proof.
  intros Hg Hc. rewrite (fill_commit _ _ Hc).
  apply snapshot_Inv, write_wrap_Inv, Hg.
Qed.

Lemma fill_commit_history p g :
  commits p g ->
  removelast (coloringPageHistory (mouseDoubleClickEvent p g)) =
    coloringPageHistory g.
Proof.
  intros Hc. rewrite (fill_commit _ _ Hc). unfold exec at 1.
  rewrite snapshotColoringPage_eq. simpl. apply removelast_last.
Qed.

Lemma fills_commit ps g :
  Inv g -> JustCommitted g -> allCommit ps g ->
  Inv (fills ps g) /\ JustCommitted (fills ps g) /\
  length (coloringPageHistory (fills ps g)) =
    (length (coloringPageHistory g) + length ps)%nat.
Proof.
  revert g. induction ps as [|p ps IH]; intros g Hg Hj Hc; simpl.
  - split; [done|]. split; [done | lia].
  - destruct Hc as [Hp Hc].
    destruct (IH _ (fill_commit_Inv _ _ Hg Hp)
                (fill_commit_JustCommitted _ _ Hg Hp) Hc) as (I & J & L).
    split; [done|]. split; [done|]. rewrite L.
    destruct (fill_commit_snapshots p g Hg Hp) as [_ ->]. lia.
Qed.

Lemma JustCommitted_nonempty g :
  JustCommitted g -> (1 <= length (coloringPageHistory g))%nat.
Proof.
  unfold JustCommitted, snapshots.
  destruct (coloringPageHistory g); simpl; [done | lia].
Qed.

Lemma snapshot_history g :
  exists c, coloringPageHistory (exec snapshotColoringPage g) =
              coloringPageHistory g ++ [c].
Proof. unfold exec. rewrite snapshotColoringPage_eq. by eexists. Qed.

Lemma snoc_nonempty {A} (l : list A) (x : A) : l ++ [x] <> [].
Proof. by destruct l. Qed.

Lemma no_image : bool_decide (is_Some (@None QImage)) = false.
Proof. apply bool_decide_eq_false. by intros [? ?]. Qed.

Lemma handle_history_nonempty e g :
  Good g -> coloringPageHistory g <> [] ->
  coloringPageHistory (handle e g) <> [].
Proof.
  intros [Hg _] Hne. destruct e; simpl; try done.
  - unfold mousePressEvent. by destruct (_ && _).
  - by destruct (mouseMoveEvent_snapshots p g Hg) as [-> _].
  - unfold mouseReleaseEvent. by destruct (_ && _).
  - unfold mouseDoubleClickEvent.
    destruct (drawingImage g); [|done]. destruct (fillToolEnabled g); [|done].
    destruct (fault _); [done|]. rewrite exec_wrap_snapshot.
    destruct (snapshot_history (exec wrapColoringPage
      (exec (writeColoringPage (filled (fillAt p g))) g))) as [c ->].
    apply snoc_nonempty.
  - unfold browseImage. case_bool_decide; [done|].
    unfold generateColoringPage. destruct (empty _); [done|].
    destruct (pipeline _ g) as [[[]|what] g'] eqn:E.
    + destruct (pipeline_Ok _ _ _ Hg E) as (image' & g1 & _ & I1 & _ & ->).
      destruct (publish_snapshots image' g1 I1) as (_ & _ & ->).
      destruct (snapshot_history g1) as [c ->]. apply snoc_nonempty.
    + destruct (pipeline_Throw _ _ _ _ Hg E) as [_ [Fh _ _]]. simpl.
      by rewrite Fh.
  - unfold saveImage. case_bool_decide; [done|].
    destruct (drawingImage g); [destruct (save _ _ _ _)|]; done.
  - destruct (decide (1 < length (coloringPageHistory g))%nat) as [Hl|Hl].
    + destruct (two_or_more _ Hl) as (h & back & top & E).
      rewrite (undoLastAction_eq g h back top E). simpl.
      apply snoc_nonempty.
    + rewrite undo_noop by lia. done.
Qed.

(** The events of a freehand drawing gesture. *)
Definition isDraw (e : Event) : bool :=
  match e with
  | MousePress _ _ | MouseMove _ | MouseRelease _ _ => true
  | _ => false
  end.

Lemma draw_snapshots e g :
  Inv g -> isDraw e = true ->
  coloringPageHistory (handle e g) = coloringPageHistory g /\
  snapshots (handle e g) = snapshots g.
Proof.
  intros Hg He. destruct e; try discriminate; simpl.
  - unfold mousePressEvent. by destruct (_ && _).
  - by apply mouseMoveEvent_snapshots.
  - unfold mouseReleaseEvent. by destruct (_ && _).
Qed.

Lemma gesture_snapshots gesture g :
  Good g -> forallb isDraw gesture = true ->
  coloringPageHistory (run gesture g) = coloringPageHistory g /\
  snapshots (run gesture g) = snapshots g.
Proof.
  revert g. induction gesture as [|e gesture IH]; intros g Hg Hd; [done|].
  simpl in Hd. apply andb_true_iff in Hd as [He Hd]. simpl.
  destruct (IH (handle e g) (Good_handle e g Hg) Hd) as [-> ->].
  destruct Hg as [Hg _]. by apply draw_snapshots.
Qed.

Lemma mouseDoubleClickEvent_snapshots p g :
  Inv g -> snapshots g `prefix_of` snapshots (mouseDoubleClickEvent p g).
Proof.
  intros Hg. unfold mouseDoubleClickEvent.
  destruct (drawingImage g) as [img|] eqn:Ei; [|done].
  destruct (fillToolEnabled g) eqn:Et; [|done].
  destruct (fault (fillAt p g)) as [what|] eqn:Ef.
  - destruct (stable_writeColoringPage (filled (fillAt p g)) g Hg) as [_ F].
    apply frame_snapshots in F. unfold exec.
    replace (snapshots (show _ _)) with (snapshots g); done.
  - rewrite exec_wrap_snapshot.
    destruct (snapshot_snapshots _ (write_wrap_Inv (filled (fillAt p g)) g Hg))
      as [-> _].
    rewrite write_wrap_snapshots by done. by eexists.
Qed.

(** ** The fill handler around [cv::floodFill] *)

(** Writing back the bytes a buffer holds changes no buffer. *)
Lemma buffer_write_same g l l' :
  buffer (set_heap (<[l := buffer g l]> (heap g)) g) l' = buffer g l'.
Proof.
  unfold buffer. simpl. destruct (decide (l = l')) as [->|Hne].
  - by rewrite lookup_insert_eq.
  - by rewrite lookup_insert_ne.
Qed.

(** What a double click leaves when there is an image and the fill tool is
    on, whether the fill committed or faulted. *)
Lemma fill_armed p g img :
  drawingImage g = Some img -> fillToolEnabled g = true ->
  coloringPage (mouseDoubleClickEvent p g) = coloringPage g /\
  drawingArea (mouseDoubleClickEvent p g) = drawingArea g /\
  fillColor (mouseDoubleClickEvent p g) = fillColor g /\
  fillToolEnabled (mouseDoubleClickEvent p g) = true /\
  is_Some (drawingImage (mouseDoubleClickEvent p g)) /\
  (Inv g -> workingRaster (mouseDoubleClickEvent p g) =
            withPixels (workingRaster g) (filled (fillAt p g))).
Proof.
  intros Hi Ht. unfold mouseDoubleClickEvent. rewrite Hi, Ht.
  destruct (fault (fillAt p g)) as [what|].
  - repeat split; try done.
    intros _. unfold workingRaster, imageOf, withPixels, buffer. simpl.
    by rewrite lookup_insert_eq.
  - rewrite exec_wrap_snapshot. repeat split.
    + unfold exec at 1. by rewrite snapshotColoringPage_eq.
    + unfold exec at 1. rewrite snapshotColoringPage_eq. by eexists.
    + intros Hg.
      destruct (snapshot_snapshots _ (write_wrap_Inv (filled (fillAt p g)) g Hg))
        as [_ ->].
      unfold workingRaster, imageOf, withPixels, buffer. simpl.
      by rewrite lookup_insert_eq.
Qed.

Lemma withPixels_id m : withPixels m (ipixels m) = m.
Proof. by destruct m. Qed.

(** Under the contract, a second [cv::floodFill] with the same seed and
    value leaves the image as the first one left it. *)
Lemma floodFill_twice (laws : FloodFillContract cv) m mask seed v :
  filled (floodFill (withPixels m (filled (floodFill m mask seed v))) mask seed v) =
  filled (floodFill m mask seed v).
Proof.
  destruct laws as [Ha Hs Hr].
  destruct (fault (floodFill m mask seed v)) as [what|] eqn:E1.
  - rewrite (Ha _ _ _ _ _ E1), withPixels_id. by apply (Ha _ _ _ _ what).
  - set (m' := withPixels m (filled (floodFill m mask seed v))).
    destruct (fault (floodFill m' mask seed v)) as [what|] eqn:E2.
    + by rewrite (Ha _ _ _ _ _ E2).
    + apply list_eq. intros i.
      destruct (Hr m' mask seed v i E2) as [->|[-> Hp]]; [done|].
      simpl in Hp. rewrite Hp. unfold m'. by rewrite (Hs _ _ _ _ E1).
Qed.

(** ** What is rendered *)

Definition white : Scalar := [255; 255; 255].
Definition black : Scalar := [0; 0; 0].

(** Lines 241-242 leave a white raster painted black under the mask they
    are given. *)
Lemma renderOutline_Ok image binaryImage g g' :
  renderOutline image binaryImage g = (Ok tt, g') ->
  exists px,
    setTo (Mat_new (size image) CV_8UC3 white) black binaryImage = Ok px /\
    workingRaster g' = withPixels (Mat_new (size image) CV_8UC3 white) px.
Proof.
  unfold renderOutline, readColoringPage, bind, assignColoringPage, alloc,
    modify, gets, call, writeColoringPage, ret. simpl.
  unfold imageOf at 1, buffer at 1. simpl. rewrite lookup_insert_eq. simpl.
  change (mkImage (irows image) (icols image) CV_8UC3
            (replicate (Z.to_nat (irows image * icols image))
               (scalarPixel CV_8UC3 [255; 255; 255])))
    with (Mat_new (size image) CV_8UC3 white).
  destruct (setTo _ _ _) as [px|e]; [|done].
  intros [= <-]. exists px. split; [done|].
  unfold workingRaster, imageOf, buffer. simpl. by rewrite lookup_insert_eq.
Qed.

Lemma setTo_pixels sz binaryImage px p k :
  setTo (Mat_new sz CV_8UC3 white) black binaryImage = Ok px ->
  pixelAt binaryImage p = Some k ->
  pixelAt (withPixels (Mat_new sz CV_8UC3 white) px) p =
    Some (if nonzero k then [0; 0; 0] else [255; 255; 255]).
Proof.
  unfold setTo, sameSize. destruct sz as [w h]. simpl.
  destruct (_ && _) eqn:E; [|done]. intros [= <-].
  apply andb_true_iff in E as [E _]. apply andb_true_iff in E as [Er Ec].
  apply Z.eqb_eq in Er, Ec. subst w h.
  unfold pixelAt, inside, offset. simpl.
  destruct (_ && _) eqn:Ei; [|done]. intros Hk.
  rewrite !andb_true_iff, !Z.leb_le, !Z.ltb_lt in Ei.
  rewrite lookup_zip_with, Hk, lookup_replicate_2 by nia. simpl.
  by destruct (nonzero k).
Qed.

(** The raster before gap repair is black exactly where the thresholded
    image is set, whatever the contours are. *)
Lemma beforeRepair_raw_threshold image g page binaryImage contours g' :
  beforeRepair image g = (Ok (page, binaryImage, contours), g') ->
  forall p k, pixelAt binaryImage p = Some k ->
    pixelAt page p = Some (if nonzero k then [0; 0; 0] else [255; 255; 255]).
Proof.
  unfold beforeRepair, bind.
  destruct (extractOutline image g) as [[[[image' bin] cs]|e] g1]; [|done].
  destruct (intersectContours cs g1) as [[[]|e] g2]; [|done].
  destruct (renderOutline image' bin g2) as [[[]|e] g3] eqn:Er; [|done].
  unfold readColoringPage, gets, ret. intros [= <- <- <- <-] p k Hk.
  destruct (renderOutline_Ok _ _ _ _ Er) as (px & Hs & Hw).
  fold (workingRaster g3). rewrite Hw. by apply (setTo_pixels _ bin).
Qed.

End Invariants.



(** ** The double arithmetic of the target size

    The error of one rounding is at most [u] relative to the exact result,
    integers below 2^53 are exact, and the cast to [int] is the floor of a
    non-negative double. *)

Module DoubleFacts.
Import Double.
Open Scope Q_scope.

Lemma pow2_pos k : 0 < pow2 k.
Proof. apply Qpower_0_lt. reflexivity. Qed.

Lemma pow2_add j k : pow2 (j + k) == pow2 j * pow2 k.
Proof. apply Qpower_plus. discriminate. Qed.

Lemma pow2_Z k : (0 <= k)%Z -> pow2 k == inject_Z (2 ^ k).
Proof. intros Hk. unfold pow2. symmetry. now apply (Zpower_Qpower 2). Qed.

Lemma pow2_ge_1 k : (0 <= k)%Z -> 1 <= pow2 k.
Proof.
  intros Hk. rewrite pow2_Z by assumption.
  change 1 with (inject_Z 1). rewrite <- Zle_Qle.
  pose proof (Z.pow_pos_nonneg 2 k). lia.
Qed.

Lemma ilog2_le q : 0 < q -> pow2 (ilog2 q) <= q.
Proof.
  intros Hq. unfold ilog2.
  set (a := Z.log2 (Qnum q)). set (b := Z.log2 (Z.pos (Qden q))).
  destruct (Qle_bool (pow2 (a - b)) q) eqn:E.
  - now apply Qle_bool_iff.
  - clear E.
    assert (0 < Qnum q)%Z as Hn.
    { destruct q as [n d]. unfold Qlt in Hq. simpl in *. lia. }
    destruct (Z.log2_spec (Qnum q) Hn) as [Ha _]. fold a in Ha.
    destruct (Z.log2_spec (Z.pos (Qden q)) eq_refl) as [_ Hb]. fold b in Hb.
    assert (0 <= a)%Z by apply Z.log2_nonneg.
    assert (0 <= b)%Z by apply Z.log2_nonneg.
    replace (a - b - 1)%Z with (a + - (b + 1))%Z by lia.
    rewrite pow2_add.
    assert (pow2 (- (b + 1)) * pow2 (b + 1) == 1) as Hinv.
    { rewrite <- pow2_add. now replace (- (b + 1) + (b + 1))%Z with 0%Z by lia. }
    rewrite (pow2_Z a) by lia. rewrite (pow2_Z (b + 1)) in Hinv by lia.
    pose proof (pow2_pos (- (b + 1))) as Hp.
    set (x := pow2 (- (b + 1))) in *.
    assert (inject_Z (2 ^ a) <= inject_Z (Qnum q)) as Ha' by now rewrite <- Zle_Qle.
    assert (inject_Z (Z.pos (Qden q)) <= inject_Z (2 ^ (b + 1))) as Hb'
      by (rewrite <- Zle_Qle; replace (b + 1)%Z with (Z.succ b) by lia; lia).
    assert (q * inject_Z (Z.pos (Qden q)) == inject_Z (Qnum q)) as Hqd.
    { destruct q as [n d]. unfold Qeq, Qmult, inject_Z. simpl. lia. }
    assert (0 < inject_Z (Z.pos (Qden q))) as Hd
      by (change 0 with (inject_Z 0); rewrite <- Zlt_Qlt; lia).
    set (A := inject_Z (2 ^ a)) in *. set (N := inject_Z (Qnum q)) in *.
    set (D := inject_Z (Z.pos (Qden q))) in *.
    set (B := inject_Z (2 ^ (b + 1))) in *.
    assert (0 <= q * x) as Ht by nra.
    assert (A * x <= N * x) as H1 by nra.
    assert (D * (q * x) <= B * (q * x)) as H2 by nra.
    assert (N * x == D * (q * x)) as H3 by (rewrite <- Hqd; ring).
    assert (B * (q * x) == q) as H4
      by (transitivity (q * (x * B)); [ring | rewrite Hinv; ring]).
    rewrite H3 in H1. rewrite H4 in H2. lra.
Qed.

Lemma rne_err m : m - (1 # 2) <= inject_Z (rne m) <= m + (1 # 2).
Proof.
  unfold rne. pose proof (Qfloor_le m) as Hl. pose proof (Qlt_floor m) as Hu.
  rewrite inject_Z_plus in Hu. change (inject_Z 1) with 1 in Hu.
  destruct (Qcompare_spec (m - inject_Z (Qfloor m)) (1 # 2)) as [E|E|E].
  - destruct (Z.even (Qfloor m)); rewrite ?inject_Z_plus;
      change (inject_Z 1) with 1; lra.
  - lra.
  - rewrite inject_Z_plus. change (inject_Z 1) with 1. lra.
Qed.

Lemma ulp_pos q : 0 < ulp q.
Proof. apply pow2_pos. Qed.

Lemma ulp_le q : 0 < q -> inject_Z (2 ^ 52) * ulp q <= q.
Proof.
  intros Hq. pose proof (ilog2_le q Hq) as He. unfold ulp.
  replace (ilog2 q) with ((ilog2 q - 52) + 52)%Z in He at 1 by lia.
  rewrite pow2_add, (pow2_Z 52) in He by lia. lra.
Qed.

Lemma round_pos_err q :
  0 < q -> (1 - u) * q <= round_pos q <= (1 + u) * q.
Proof.
  intros Hq. unfold round_pos. rewrite Qred_correct.
  pose proof (ulp_pos q) as Hp. pose proof (ulp_le q Hq) as Hl.
  pose proof (rne_err (q / ulp q)) as Hr.
  assert (q / ulp q * ulp q == q) as Hm by (field; lra).
  set (p := ulp q) in *. set (m := q / p) in *. set (R := inject_Z (rne m)) in *.
  assert (R * p <= (m + (1 # 2)) * p) by nra.
  assert ((m - (1 # 2)) * p <= R * p) by nra.
  unfold u. change (inject_Z (2 ^ 52)) with (4503599627370496 # 1) in Hl.
  change (2 ^ 53)%positive with 9007199254740992%positive.
  lra.
Qed.

Lemma fl_err q : 0 < q -> (1 - u) * q <= fl q <= (1 + u) * q.
Proof.
  intros Hq. unfold fl. rewrite Qlt_alt in Hq.
  assert (Qcompare q 0 = Gt) as -> by (now apply Qgt_alt).
  apply round_pos_err. now apply Qlt_alt.
Qed.

Lemma fl_zero q : q == 0 -> fl q = 0.
Proof. intros Hq. unfold fl. apply Qeq_alt in Hq. now rewrite Hq. Qed.

Lemma rne_int m z : m == inject_Z z -> rne m = z.
Proof.
  intros Hm. unfold rne.
  assert (Qfloor m = z) as -> by (rewrite <- (Qfloor_Z z); now apply Qfloor_comp).
  assert (Qcompare (m - inject_Z z) (1 # 2) = Lt) as ->; [|reflexivity].
  change (m - inject_Z z < 1 # 2). lra.
Qed.

Lemma pow2_53 : pow2 53 == inject_Z (2 ^ 53).
Proof. now apply pow2_Z. Qed.

(** Integers below 2^53 are doubles. *)
Lemma fl_int n : (0 < n < 2 ^ 53)%Z -> fl (inject_Z n) == inject_Z n.
Proof.
  intros [Hn0 Hn].
  assert (0 < inject_Z n) as Hq
    by (change 0 with (inject_Z 0); now rewrite <- Zlt_Qlt).
  unfold fl. pose proof Hq as Hc. rewrite Qlt_alt in Hc.
  assert (Qcompare (inject_Z n) 0 = Gt) as -> by (now apply Qgt_alt).
  unfold round_pos. rewrite Qred_correct.
  pose proof (ilog2_le _ Hq) as He. set (e := ilog2 (inject_Z n)) in *.
  assert (e <= 52)%Z as He52.
  { destruct (Z_le_gt_dec e 52) as [|Hgt]; [assumption|exfalso].
    replace e with (53 + (e - 53))%Z in He by lia.
    rewrite pow2_add, pow2_53 in He.
    pose proof (pow2_ge_1 (e - 53) ltac:(lia)) as H1.
    assert (inject_Z n < inject_Z (2 ^ 53)) as Hlt by now rewrite <- Zlt_Qlt.
    assert (0 < inject_Z (2 ^ 53)) by reflexivity. nra. }
  unfold ulp. fold e.
  assert (pow2 (e - 52) * pow2 (52 - e) == 1) as Hinv.
  { rewrite <- pow2_add. now replace (e - 52 + (52 - e))%Z with 0%Z by lia. }
  rewrite (pow2_Z (52 - e)) in Hinv by lia.
  pose proof (pow2_pos (e - 52)) as Hp. set (p := pow2 (e - 52)) in *.
  assert (inject_Z n / p == inject_Z (n * 2 ^ (52 - e))) as Hm.
  { rewrite inject_Z_mult. apply Qmult_inj_r with (z := p); [lra|].
    transitivity (inject_Z n); [field; lra|].
    rewrite <- Qmult_assoc, (Qmult_comm _ p), Hinv. ring. }
  rewrite (rne_int _ _ Hm), inject_Z_mult.
  rewrite <- Qmult_assoc, (Qmult_comm _ p), Hinv. ring.
Qed.

Lemma of_int_exact n : (0 <= n < 2 ^ 53)%Z -> of_int n == inject_Z n.
Proof.
  intros [Hn0 Hn]. unfold of_int. destruct (Z.eq_dec n 0%Z) as [->|Hne].
  - reflexivity.
  - apply fl_int. lia.
Qed.

Lemma trunc_floor x : 0 <= x -> trunc x = Qfloor x.
Proof.
  intros Hx. destruct x as [n d]. unfold trunc, Qfloor. simpl.
  apply Z.quot_div_nonneg; [|lia]. unfold Qle in Hx. simpl in Hx. lia.
Qed.

Lemma trunc_spec x :
  0 <= x -> (0 <= trunc x)%Z /\ inject_Z (trunc x) <= x < inject_Z (trunc x) + 1.
Proof.
  intros Hx. rewrite (trunc_floor x Hx).
  pose proof (Qfloor_le x) as Hl. pose proof (Qlt_floor x) as Hu.
  rewrite inject_Z_plus in Hu. change (inject_Z 1) with 1 in Hu.
  split; [|split; assumption].
  change 0%Z with (Qfloor 0). now apply Qfloor_resp_le.
Qed.

Lemma inject_Z_pos n : (0 < n)%Z -> 0 < inject_Z n.
Proof. intros Hn. change 0 with (inject_Z 0). now rewrite <- Zlt_Qlt. Qed.

(** The aspect ratio as the program computes it, against the exact one. *)
Lemma aspect_bounds c r :
  (0 < c)%Z -> small c -> (0 < r)%Z -> small r ->
  0 < div (of_int c) (of_int r) /\
  (1 - u) * inject_Z c <= div (of_int c) (of_int r) * inject_Z r /\
  div (of_int c) (of_int r) * inject_Z r <= (1 + u) * inject_Z c.
Proof.
  unfold small. intros Hc0 Hc Hr0 Hr.
  pose proof (of_int_exact c ltac:(lia)) as Ec.
  pose proof (of_int_exact r ltac:(lia)) as Er.
  pose proof (inject_Z_pos c Hc0) as HC. pose proof (inject_Z_pos r Hr0) as HR.
  assert (of_int c / of_int r * inject_Z r == inject_Z c) as Hx
    by (rewrite Ec, Er; field; lra).
  assert (0 < of_int c / of_int r) as Hx0.
  { rewrite Ec, Er. apply Qlt_shift_div_l; lra. }
  unfold div. pose proof (fl_err _ Hx0) as [Hlo Hhi].
  set (x := of_int c / of_int r) in *. set (A := fl x) in *.
  unfold u in *. change (2 ^ 53)%positive with 9007199254740992%positive in *.
  split; [lra|]. split; nra.
Qed.

(** [static_cast<int>(n / aspectRatio)] against the exact quotient. *)
Lemma div_trunc c r n :
  (0 < c)%Z -> small c -> (0 < r)%Z -> small r -> (0 <= n)%Z -> small n ->
  let h := trunc (div (of_int n) (div (of_int c) (of_int r))) in
  (0 <= h /\ h * c <= n * r < (h + 2) * c)%Z.
Proof.
  intros Hc0 Hc Hr0 Hr Hn0 Hn. cbv zeta.
  destruct (aspect_bounds c r Hc0 Hc Hr0 Hr) as (HA & Hlo & Hhi).
  set (A := div (of_int c) (of_int r)) in *.
  pose proof (inject_Z_pos c Hc0) as HC. pose proof (inject_Z_pos r Hr0) as HR.
  destruct (Z.eq_dec n 0%Z) as [->|Hne].
  - assert (div (of_int 0) A = 0) as ->.
    { unfold div. apply fl_zero. change (of_int 0) with 0. field. lra. }
    change (trunc 0) with 0%Z. unfold small in *. lia.
  - unfold small in *.
    pose proof (of_int_exact n ltac:(lia)) as En.
    pose proof (inject_Z_pos n ltac:(lia)) as HN.
    assert (of_int n / A * A == inject_Z n) as Hx by (rewrite En; field; lra).
    assert (0 < of_int n / A) as Hx0 by (rewrite En; apply Qlt_shift_div_l; lra).
    unfold div at 1. pose proof (fl_err _ Hx0) as [Hql Hqh].
    set (x := of_int n / A) in *. set (q := fl x) in *.
    assert (0 <= q) as Hq0
      by (unfold u in *; change (2 ^ 53)%positive with 9007199254740992%positive in *; nra).
    destruct (trunc_spec q Hq0) as (Hh0 & Hfl & Hfu).
    set (h := trunc q) in *.
    assert (0 <= inject_Z h) as HH
      by (change 0 with (inject_Z 0); now rewrite <- Zle_Qle).
    set (H := inject_Z h) in *. set (C := inject_Z c) in *.
    set (R := inject_Z r) in *. set (N := inject_Z n) in *.
    unfold u in *. change (2 ^ 53)%positive with 9007199254740992%positive in *.
    assert (H * C * (9007199254740991 # 1) <= (9007199254740993 # 1) * N * R) as J1.
    { assert (H * ((1 - (1 # 9007199254740992)) * C) <= H * (A * R)) by nra.
      assert (H * (A * R) <= q * (A * R)) by nra.
      assert (q * A <= (1 + (1 # 9007199254740992)) * N) by nra.
      assert (q * A * R <= (1 + (1 # 9007199254740992)) * N * R) by nra.
      lra. }
    assert (N * R * (9007199254740991 # 1) < (H + 1) * C * (9007199254740993 # 1)) as J2.
    { assert ((1 - (1 # 9007199254740992)) * N <= q * A) by nra.
      assert (q * A < (H + 1) * A) by nra.
      assert ((1 - (1 # 9007199254740992)) * N * R < (H + 1) * A * R) by nra.
      assert ((H + 1) * (A * R) <= (H + 1) * ((1 + (1 # 9007199254740992)) * C)) by nra.
      lra. }
    assert (h * c * 9007199254740991 <= 9007199254740993 * n * r)%Z as K1.
    { rewrite Zle_Qle, !inject_Z_mult. exact J1. }
    assert (n * r * 9007199254740991 < (h + 1) * c * 9007199254740993)%Z as K2.
    { rewrite Zlt_Qlt, !inject_Z_mult, inject_Z_plus. exact J2. }
    assert (n * r < 2 ^ 48)%Z by nia.
    assert (0 <= h * c)%Z by nia.
    change (trunc (div (of_int n) A)) with h.
    split; [assumption|].
    replace ((h + 2) * c)%Z with (h * c + 2 * c)%Z by ring.
    replace ((h + 1) * c * 9007199254740993)%Z
      with ((h * c + c) * 9007199254740993)%Z in K2 by ring.
    replace (9007199254740993 * n * r)%Z
      with (9007199254740993 * (n * r))%Z in K1 by ring.
    set (K := (h * c)%Z) in *. set (P := (n * r)%Z) in *. lia.
Qed.

(** [static_cast<int>(n * aspectRatio)] against the exact product. *)
Lemma mul_trunc c r n :
  (0 < c)%Z -> small c -> (0 < r)%Z -> small r -> (0 <= n)%Z -> small n ->
  let w := trunc (mul (of_int n) (div (of_int c) (of_int r))) in
  (0 <= w /\ w * r <= n * c < (w + 2) * r)%Z.
Proof.
  intros Hc0 Hc Hr0 Hr Hn0 Hn. cbv zeta.
  destruct (aspect_bounds c r Hc0 Hc Hr0 Hr) as (HA & Hlo & Hhi).
  set (A := div (of_int c) (of_int r)) in *.
  pose proof (inject_Z_pos c Hc0) as HC. pose proof (inject_Z_pos r Hr0) as HR.
  destruct (Z.eq_dec n 0%Z) as [->|Hne].
  - assert (mul (of_int 0) A = 0) as ->.
    { unfold mul. apply fl_zero. change (of_int 0) with 0. ring. }
    change (trunc 0) with 0%Z. unfold small in *. lia.
  - unfold small in *.
    pose proof (of_int_exact n ltac:(lia)) as En.
    pose proof (inject_Z_pos n ltac:(lia)) as HN.
    assert (of_int n * A == inject_Z n * A) as Hx by (now rewrite En).
    assert (0 < of_int n * A) as Hx0 by (rewrite En; nra).
    pose proof (fl_err _ Hx0) as [Hql Hqh].
    change (fl (of_int n * A)) with (mul (of_int n) A) in Hql, Hqh.
    set (x := of_int n * A) in *. set (q := mul (of_int n) A) in *.
    assert (0 <= q) as Hq0
      by (unfold u in *; change (2 ^ 53)%positive with 9007199254740992%positive in *; nra).
    destruct (trunc_spec q Hq0) as (Hw0 & Hfl & Hfu).
    set (w := trunc q) in *.
    assert (0 <= inject_Z w) as HW
      by (change 0 with (inject_Z 0); now rewrite <- Zle_Qle).
    set (W := inject_Z w) in *. set (C := inject_Z c) in *.
    set (R := inject_Z r) in *. set (N := inject_Z n) in *.
    unfold u in *. change (2 ^ 53)%positive with 9007199254740992%positive in *.
    assert (W * R * (9007199254740992 # 1) * (9007199254740992 # 1)
            <= (9007199254740993 # 1) * (9007199254740993 # 1) * N * C) as J1.
    { assert (W * R <= q * R) by nra.
      assert (q * R <= (1 + (1 # 9007199254740992)) * (N * (A * R))) by nra.
      assert (N * (A * R) <= N * ((1 + (1 # 9007199254740992)) * C)) by nra.
      lra. }
    assert ((9007199254740991 # 1) * (9007199254740991 # 1) * N * C
            < (W + 1) * R * (9007199254740992 # 1) * (9007199254740992 # 1)) as J2.
    { assert (q * R < (W + 1) * R) by nra.
      assert ((1 - (1 # 9007199254740992)) * (N * (A * R)) <= q * R) by nra.
      assert (N * ((1 - (1 # 9007199254740992)) * C) <= N * (A * R)) by nra.
      lra. }
    assert (w * r * 9007199254740992 * 9007199254740992
            <= 9007199254740993 * 9007199254740993 * n * c)%Z as K1.
    { rewrite Zle_Qle, !inject_Z_mult. exact J1. }
    assert (9007199254740991 * 9007199254740991 * n * c
            < (w + 1) * r * 9007199254740992 * 9007199254740992)%Z as K2.
    { rewrite Zlt_Qlt, !inject_Z_mult, inject_Z_plus. exact J2. }
    assert (n * c < 2 ^ 48)%Z by nia.
    assert (0 <= w * r)%Z by nia.
    split; [assumption|].
    replace ((w + 2) * r)%Z with (w * r + 2 * r)%Z by ring.
    replace ((w + 1) * r * 9007199254740992 * 9007199254740992)%Z
      with ((w * r + r) * (9007199254740992 * 9007199254740992))%Z in K2 by ring.
    replace (9007199254740993 * 9007199254740993 * n * c)%Z
      with (9007199254740993 * 9007199254740993 * (n * c))%Z in K1 by ring.
    replace (9007199254740991 * 9007199254740991 * n * c)%Z
      with (9007199254740991 * 9007199254740991 * (n * c))%Z in K2 by ring.
    replace (w * r * 9007199254740992 * 9007199254740992)%Z
      with (w * r * (9007199254740992 * 9007199254740992))%Z in K1 by ring.
    set (K := (w * r)%Z) in *. set (P := (n * c)%Z) in *. lia.
Qed.

(** The cast is the truncation as long as that is in the range of
    [int]. *)
Lemma to_int_trunc x :
  (- 2 ^ 31 <= trunc x <= 2 ^ 31 - 1)%Z -> to_int x = trunc x.
Proof.
  intros [Hl Hu]. unfold to_int, INT_MIN, INT_MAX. cbv zeta.
  destruct (Z.leb_spec (- 2 ^ 31) (trunc x)); [|lia].
  destruct (Z.leb_spec (trunc x) (2 ^ 31 - 1)); [reflexivity|lia].
Qed.

Lemma to_int_overflow x : (2 ^ 31 <= trunc x)%Z -> to_int x = INT_MIN.
Proof.
  intros H. unfold to_int, INT_MAX. cbv zeta.
  destruct (Z.leb_spec (trunc x) (2 ^ 31 - 1)); [lia|].
  now rewrite andb_false_r.
Qed.

End DoubleFacts.

(** The two casts of lines 197 and 200.  When the proportional height is
    below 2^31 the first cast is in range, and the second one is evaluated
    only when its value is below [maxWidth]: the target size is then the
    one of the truncations. *)
Lemma targetSize_in_range (cols rows maxWidth maxHeight : Z) :
  0 < cols -> small cols -> 0 < rows -> small rows ->
  0 <= maxWidth -> small maxWidth -> 0 <= maxHeight -> small maxHeight ->
  maxWidth * rows < 2 ^ 31 * cols ->
  exists h0 w0,
    (0 <= h0 /\ h0 * cols <= maxWidth * rows < (h0 + 2) * cols) /\
    (0 <= w0 /\ w0 * rows <= maxHeight * cols < (w0 + 2) * rows) /\
    targetSize cols rows maxWidth maxHeight =
      if maxHeight <? h0 then (w0, maxHeight) else (maxWidth, h0).
Proof.
  intros Hc0 Hc Hr0 Hr HW0 HW HH0 HH Hfit.
  pose proof (DoubleFacts.div_trunc cols rows maxWidth Hc0 Hc Hr0 Hr HW0 HW) as Hh.
  pose proof (DoubleFacts.mul_trunc cols rows maxHeight Hc0 Hc Hr0 Hr HH0 HH) as Hw.
  cbv zeta in Hh, Hw. unfold targetSize.
  set (x := Double.div (Double.of_int maxWidth)
              (Double.div (Double.of_int cols) (Double.of_int rows))) in *.
  set (y := Double.mul (Double.of_int maxHeight)
              (Double.div (Double.of_int cols) (Double.of_int rows))) in *.
  exists (Double.trunc x), (Double.trunc y).
  split; [exact Hh|]. split; [exact Hw|].
  destruct Hh as (Hh0 & Hh1 & Hh2). destruct Hw as (Hw0 & Hw1 & Hw2).
  assert (Double.trunc x < 2 ^ 31) as Hx by nia.
  rewrite (DoubleFacts.to_int_trunc x) by lia.
  destruct (Z.ltb_spec maxHeight (Double.trunc x)) as [Hlt|Hge]; [|reflexivity].
  assert (Double.trunc y < maxWidth) as Hy by nia.
  unfold small in HW. rewrite (DoubleFacts.to_int_trunc y) by lia.
  reflexivity.
Qed.

(** When the proportional height is 2^31 + 1 or more, the first cast is
    out of range: the height is [INT_MIN], which is not above [maxHeight],
    so the target size is [maxWidth] by [INT_MIN]. *)
Lemma targetSize_overflow (cols rows maxWidth maxHeight : Z) :
  0 < cols -> small cols -> 0 < rows -> small rows ->
  0 <= maxWidth -> small maxWidth -> 0 <= maxHeight ->
  (2 ^ 31 + 1) * cols <= maxWidth * rows ->
  targetSize cols rows maxWidth maxHeight = (maxWidth, Double.INT_MIN).
Proof.
  intros Hc0 Hc Hr0 Hr HW0 HW HH0 Hbig.
  pose proof (DoubleFacts.div_trunc cols rows maxWidth Hc0 Hc Hr0 Hr HW0 HW) as Hh.
  cbv zeta in Hh. unfold targetSize.
  set (x := Double.div (Double.of_int maxWidth)
              (Double.div (Double.of_int cols) (Double.of_int rows))) in *.
  destruct Hh as (Hh0 & Hh1 & Hh2).
  assert (2 ^ 31 <= Double.trunc x) as Hx by nia.
  rewrite (DoubleFacts.to_int_overflow x Hx).
  destruct (Z.ltb_spec maxHeight Double.INT_MIN) as [Hlt|Hge]; [|reflexivity].
  unfold Double.INT_MIN in Hlt. lia.
Qed.

(** C7 (amended): for a photo of [cols] x [rows] pixels and a drawing
    area of [maxWidth] x [maxHeight], all below 2^24, and a proportional
    height [maxWidth * rows / cols] below 2^31, so that the cast of line
    197 is in the range of [int]: the target size fits the drawing area in
    both axes (so the photo is never scaled beyond it), one of its sides is
    the side of the drawing area, and the other side is the proportional
    value cut to an integer: never above the proportional value and less
    than two pixels below it.  The aspect ratio is preserved up to that
    truncation only. *)
Theorem target_size_fits_canvas (cols rows maxWidth maxHeight : Z) :
  0 < cols -> small cols -> 0 < rows -> small rows ->
  0 <= maxWidth -> small maxWidth -> 0 <= maxHeight -> small maxHeight ->
  maxWidth * rows < 2 ^ 31 * cols ->
  let w := fst (targetSize cols rows maxWidth maxHeight) in
  let h := snd (targetSize cols rows maxWidth maxHeight) in
  0 <= w <= maxWidth /\ 0 <= h <= maxHeight /\
  ((w = maxWidth /\ h * cols <= maxWidth * rows < (h + 2) * cols) \/
   (h = maxHeight /\ w * rows <= maxHeight * cols < (w + 2) * rows)).
Proof.
  intros Hc0 Hc Hr0 Hr HW0 HW HH0 HH Hfit. cbv zeta.
  destruct (targetSize_in_range cols rows maxWidth maxHeight
              Hc0 Hc Hr0 Hr HW0 HW HH0 HH Hfit)
    as (h0 & w0 & (Hh0 & Hh1 & Hh2) & (Hw0 & Hw1 & Hw2) & ->).
  destruct (Z.ltb_spec maxHeight h0) as [Hlt|Hge]; simpl.
  - split; [|split; [lia|right; lia]]. split; [assumption|]. nia.
  - split; [lia|]. split; [lia|]. left. lia.
Qed.


(** ** The claims of the specification *)

Section Claims.

Context {cv : OpenCV} {qt : Qt}.

(** C6: once there is a snapshot on the history stack, there is one after
    every sequence of events; and an undo requested when the stack holds
    exactly one snapshot changes nothing at all: the stack keeps its one
    snapshot, the working raster keeps its bytes and no message box is
    shown. *)
Theorem history_keeps_baseline (g : Generator) (events : list Event) :
  reachable g -> coloringPageHistory g <> [] ->
  coloringPageHistory (run events g) <> [] /\
  (length (coloringPageHistory (run events g)) = 1%nat ->
   undoLastAction (run events g) = run events g).
Proof.
  intros Hr Hne. split.
  - apply reachable_Good in Hr. revert g Hr Hne.
    induction events as [|e events IH]; intros g Hg Hne; [done|].
    simpl. apply IH; [by apply Good_handle|].
    by apply handle_history_nonempty.
  - intros Hl. apply undo_noop. lia.
Qed.

(** C10: while no photo has been loaded ([drawingImage] is null), a mouse
    press, a mouse move, a mouse release, a double click and an undo
    request each leave the whole state as it is: working raster, history,
    fill colour and tool mode are unchanged and no message box is
    shown. *)
Theorem no_image_no_effect (g : Generator) :
  reachable g -> drawingImage g = None ->
  (forall button p, mousePressEvent button p g = g) /\
  (forall p, mouseMoveEvent p g = g) /\
  (forall button p, mouseReleaseEvent button p g = g) /\
  (forall p, mouseDoubleClickEvent p g = g) /\
  undoLastAction g = g.
Proof.
  intros Hr Hn. apply reachable_Good in Hr. destruct Hr as [_ Hl].
  repeat split; intros.
  - unfold mousePressEvent. by rewrite Hn, no_image, andb_false_r.
  - unfold mouseMoveEvent. by rewrite Hn.
  - unfold mouseReleaseEvent. by rewrite Hn, no_image, andb_false_r.
  - unfold mouseDoubleClickEvent. by rewrite Hn.
  - apply undo_noop. rewrite (Hl Hn). simpl. lia.
Qed.

(** C4: after a successful generation followed by N >= 1 fills that
    commit, one undo removes the top snapshot and leaves the stack and the
    working raster byte for byte as they were after the first N-1 of the
    fills (after the generation, when N = 1). *)
Theorem undo_restores_previous_commit (g0 : Generator) (path : string)
    (ps : list QPoint) (p : QPoint) :
  reachable g0 -> generates path g0 ->
  allCommit (ps ++ [p]) (generateColoringPage path g0) ->
  let s := fills ps (generateColoringPage path g0) in
  let t := mouseDoubleClickEvent p s in
  length (coloringPageHistory t) = S (length (coloringPageHistory s)) /\
  coloringPageHistory (undoLastAction t) = coloringPageHistory s /\
  snapshots (undoLastAction t) = snapshots s /\
  workingRaster (undoLastAction t) = workingRaster s.
Proof.
  intros Hr Hgen Hc s t. apply reachable_Good in Hr. destruct Hr as [Hg0 _].
  apply allCommit_snoc in Hc. destruct Hc as [Hps Hp].
  destruct (generate_Ok path g0 Hg0 Hgen) as (image' & g1 & _ & I1 & _ & Eg).
  assert (Inv (generateColoringPage path g0)) as Hg
    by (rewrite Eg; by apply publish_Inv).
  pose proof (generate_JustCommitted path g0 Hg0 Hgen) as Hj.
  destruct (fills_commit ps _ Hg Hj Hps) as (Is & Js & _). fold s in Is, Js, Hp.
  destruct (fill_commit_snapshots p s Is Hp) as [Es El]. fold t in Es, El.
  pose proof (fill_commit_Inv p s Is Hp) as It. fold t in It.
  pose proof (JustCommitted_nonempty s Js) as Hs.
  destruct (undo_effective t It ltac:(lia)) as (Eh & Eu & Ju).
  split; [done|]. split; [|split].
  - rewrite Eh. by apply fill_commit_history.
  - rewrite Eu, Es. apply removelast_last.
  - unfold JustCommitted in Ju, Js.
    rewrite Eu, Es, removelast_last, Js in Ju. congruence.
Qed.

(** C2 (amended): a successful run of the pipeline pushes one snapshot, a
    copy of the generated raster, on top of the history stack and removes
    nothing from it: the stack is one longer than before, the snapshots
    below keep their bytes, and the stack has exactly one entry after the
    generation exactly when it was empty before. *)
Theorem generation_pushes_one_snapshot (g : Generator) (path : string) :
  reachable g -> generates path g ->
  removelast (coloringPageHistory (generateColoringPage path g)) =
    coloringPageHistory g /\
  length (coloringPageHistory (generateColoringPage path g)) =
    S (length (coloringPageHistory g)) /\
  snapshots (generateColoringPage path g) =
    snapshots g ++ [workingRaster (generateColoringPage path g)] /\
  (length (coloringPageHistory (generateColoringPage path g)) = 1%nat <->
   coloringPageHistory g = []).
Proof.
  intros Hr Hgen. apply reachable_Good in Hr. destruct Hr as [Hg _].
  destruct (generate_Ok path g Hg Hgen) as (image' & g1 & _ & I1 & F1 & ->).
  destruct (publish_snapshots image' g1 I1) as (Es & Ew & Eh).
  destruct (snapshot_history g1) as [c Ec].
  rewrite Eh, Ec, Es, Ew, (frame_snapshots _ _ F1).
  destruct F1 as [-> _ _].
  rewrite removelast_last, length_app. simpl.
  split; [done|]. split; [lia|]. split; [done|].
  destruct (coloringPageHistory g); simpl; split; (done || lia).
Qed.

(** C5 (amended): in every state the snapshots have buffers of their own,
    distinct from each other and from the buffer of the working raster,
    which is the one [drawingImage] paints into.  Right after a commit (a
    fill that succeeds, a generation that succeeds) and right after an undo
    that removes a snapshot, the top snapshot holds the bytes of the working
    raster.  Drawing and filling leave the bytes of every snapshot already
    on the stack as they are. *)
Theorem snapshots_are_independent_copies (g : Generator) :
  reachable g ->
  NoDup (data (coloringPage g) :: historyLocs g) /\
  (forall img, drawingImage g = Some img ->
     bits img ∉ historyLocs g) /\
  (forall p, commits p g -> JustCommitted (mouseDoubleClickEvent p g)) /\
  (forall path, generates path g ->
     JustCommitted (generateColoringPage path g)) /\
  ((1 < length (coloringPageHistory g))%nat ->
     JustCommitted (undoLastAction g)) /\
  (forall p, snapshots (mouseMoveEvent p g) = snapshots g) /\
  (forall p, snapshots g `prefix_of` snapshots (mouseDoubleClickEvent p g)).
Proof.
  intros Hr. apply reachable_Good in Hr. destruct Hr as [Hg _].
  repeat split.
  - apply NoDup_cons. destruct Hg. done.
  - intros img Himg. destruct Hg as [_ _ _ _ H5]. by destruct (H5 img Himg).
  - intros p Hc. by apply fill_commit_JustCommitted.
  - intros path Hgen. by apply generate_JustCommitted.
  - intros Hl. by destruct (undo_effective g Hg Hl) as (_ & _ & ?).
  - intros p. by destruct (mouseMoveEvent_snapshots p g Hg).
  - intros p. by apply mouseDoubleClickEvent_snapshots.
Qed.

(** C8 (amended): a drawing gesture (press, moves, release) commits
    nothing: the history stack and the bytes of its snapshots are after the
    gesture what they were before it.  An undo after the gesture, when the
    stack holds two snapshots or more, removes the top snapshot and makes
    the working raster a copy of the snapshot below it; when the stack holds
    at most one snapshot it does nothing. *)
Theorem drawing_commits_nothing (g : Generator) (gesture : list Event) :
  reachable g -> forallb isDraw gesture = true ->
  coloringPageHistory (run gesture g) = coloringPageHistory g /\
  snapshots (run gesture g) = snapshots g /\
  ((1 < length (coloringPageHistory g))%nat ->
     coloringPageHistory (undoLastAction (run gesture g)) =
       removelast (coloringPageHistory g) /\
     snapshots (undoLastAction (run gesture g)) = removelast (snapshots g) /\
     last (removelast (snapshots g)) =
       Some (workingRaster (undoLastAction (run gesture g)))) /\
  ((length (coloringPageHistory g) <= 1)%nat ->
     undoLastAction (run gesture g) = run gesture g).
Proof.
  intros Hr Hd. pose proof (reachable_Good _ (reachable_run gesture g Hr)) as [Hg' _].
  apply reachable_Good in Hr.
  destruct (gesture_snapshots gesture g Hr Hd) as [Eh Es].
  split; [done|]. split; [done|]. split.
  - intros Hl. rewrite <- Eh in Hl.
    destruct (undo_effective _ Hg' Hl) as (Eu & Esu & Ju).
    unfold JustCommitted in Ju. rewrite Esu, Es in Ju.
    rewrite Eu, Esu, Eh, Es. done.
  - intros Hl. apply undo_noop. by rewrite Eh.
Qed.


(** C3: when there is a working raster, the fill tool is on and
    [cv::floodFill] throws, the handler shows one message box, an error
    that carries the [what()] text of the exception, and leaves the working
    raster and the history stack byte for byte as they were ([cv::floodFill]
    checks its arguments before it writes). *)
Theorem fill_fault_changes_nothing (laws : FloodFillContract cv)
    (g : Generator) (p : QPoint) (what : string) :
  is_Some (drawingImage g) -> fillToolEnabled g = true ->
  fault (fillAt p g) = Some what ->
  shown (mouseDoubleClickEvent p g) =
    shown g ++ [critical "Error" ("Failed to perform flood fill: " ++ what)] /\
  coloringPage (mouseDoubleClickEvent p g) = coloringPage g /\
  workingRaster (mouseDoubleClickEvent p g) = workingRaster g /\
  coloringPageHistory (mouseDoubleClickEvent p g) = coloringPageHistory g /\
  snapshots (mouseDoubleClickEvent p g) = snapshots g /\
  drawingImage (mouseDoubleClickEvent p g) = drawingImage g.
Proof.
  intros [img Hi] Ht Hf. unfold mouseDoubleClickEvent. rewrite Hi, Ht, Hf.
  unfold fillAt in Hf. apply (floodFill_atomic _ laws) in Hf.
  fold (fillAt p g) in Hf. rewrite Hf. simpl.
  repeat split; try done.
  - unfold workingRaster, imageOf. simpl. f_equal.
    apply (buffer_write_same g).
  - unfold snapshots. simpl. apply map_ext. intros m.
    unfold imageOf. f_equal. apply (buffer_write_same g).
Qed.

(** C9: a second double click at the same point, with the same colour,
    leaves the working raster byte for byte as the first one left it. *)
Theorem fill_is_idempotent (laws : FloodFillContract cv)
    (g : Generator) (p : QPoint) :
  reachable g ->
  workingRaster (mouseDoubleClickEvent p (mouseDoubleClickEvent p g)) =
  workingRaster (mouseDoubleClickEvent p g).
Proof.
  intros Hr. pose proof (reachable_Good _ Hr) as [Hg _].
  pose proof (reachable_Good _ (reachable_handle (MouseDoubleClick p) g Hr))
    as [Hg1 _]. simpl in Hg1.
  destruct (drawingImage g) as [img|] eqn:Hi;
    [|by unfold mouseDoubleClickEvent; rewrite Hi; rewrite Hi].
  destruct (fillToolEnabled g) eqn:Ht;
    [|by unfold mouseDoubleClickEvent; rewrite Hi, Ht; rewrite Hi, Ht].
  destruct (fill_armed p g img Hi Ht) as (Ep & Ea & Ec & Et & [img1 Hi1] & Ew).
  destruct (fill_armed p _ img1 Hi1 Et) as (_ & _ & _ & _ & _ & Ew2).
  rewrite (Ew2 Hg1), (Ew Hg).
  assert (fillAt p (mouseDoubleClickEvent p g) =
          floodFill (withPixels (workingRaster g) (filled (fillAt p g)))
            (zeros (rows (coloringPage g) + 2) (cols (coloringPage g) + 2) CV_8U)
            (qx (QPoint_sub p (pos (drawingArea g))),
             qy (QPoint_sub p (pos (drawingArea g))))
            [red (fillColor g); green (fillColor g); blue (fillColor g)]) as E2.
  { unfold fillAt at 1. cbv zeta. rewrite Ea, Ec.
    change (imageOf (mouseDoubleClickEvent p g)
              (coloringPage (mouseDoubleClickEvent p g)))
      with (workingRaster (mouseDoubleClickEvent p g)).
    by rewrite Ep, (Ew Hg). }
  rewrite E2. unfold fillAt. cbv zeta. fold (workingRaster g).
  by rewrite (floodFill_twice laws).
Qed.


End Claims.

(** ** The claims on concrete runs *)

(** The state after the speck photo has been loaded into a new window. *)
Definition loaded : Generator := run [Browse "speck.png"] Reference.start.

Lemma reachable_start : reachable Reference.start.
Proof. by exists Reference.area, true, []. Qed.

Lemma reachable_loaded : reachable loaded.
Proof. apply reachable_run, reachable_start. Qed.

Lemma history_keeps_baseline_witness :
  coloringPageHistory (run [UndoAction; MouseDoubleClick (mkQPoint 0 0)] loaded) <> [] /\
  (length (coloringPageHistory (run [UndoAction; MouseDoubleClick (mkQPoint 0 0)] loaded)) = 1%nat ->
   undoLastAction (run [UndoAction; MouseDoubleClick (mkQPoint 0 0)] loaded) =
   run [UndoAction; MouseDoubleClick (mkQPoint 0 0)] loaded).
Proof.
  apply (history_keeps_baseline loaded [UndoAction; MouseDoubleClick (mkQPoint 0 0)]).
  - apply reachable_loaded.
  - vm_compute. discriminate.
Defined.

Lemma no_image_no_effect_witness :
  (forall button p, mousePressEvent button p Reference.start = Reference.start) /\
  (forall p, mouseMoveEvent p Reference.start = Reference.start) /\
  (forall button p, mouseReleaseEvent button p Reference.start = Reference.start) /\
  (forall p, mouseDoubleClickEvent p Reference.start = Reference.start) /\
  undoLastAction Reference.start = Reference.start.
Proof.
  apply (no_image_no_effect Reference.start).
  - apply reachable_start.
  - reflexivity.
Defined.

Lemma undo_restores_previous_commit_witness :
  let s := fills [mkQPoint 0 0] (generateColoringPage "speck.png" Reference.start) in
  let t := mouseDoubleClickEvent (mkQPoint 1 1) s in
  length (coloringPageHistory t) = S (length (coloringPageHistory s)) /\
  coloringPageHistory (undoLastAction t) = coloringPageHistory s /\
  snapshots (undoLastAction t) = snapshots s /\
  workingRaster (undoLastAction t) = workingRaster s.
Proof.
  apply (undo_restores_previous_commit Reference.start "speck.png"
           [mkQPoint 0 0] (mkQPoint 1 1)).
  - apply reachable_start.
  - split; vm_compute; reflexivity.
  - vm_compute. split_and!; done || by eexists.
Defined.

Lemma generation_pushes_one_snapshot_witness :
  removelast (coloringPageHistory (generateColoringPage "speck.png" loaded)) =
    coloringPageHistory loaded /\
  length (coloringPageHistory (generateColoringPage "speck.png" loaded)) =
    S (length (coloringPageHistory loaded)) /\
  snapshots (generateColoringPage "speck.png" loaded) =
    snapshots loaded ++ [workingRaster (generateColoringPage "speck.png" loaded)] /\
  (length (coloringPageHistory (generateColoringPage "speck.png" loaded)) = 1%nat <->
   coloringPageHistory loaded = []).
Proof.
  apply (generation_pushes_one_snapshot loaded "speck.png").
  - apply reachable_loaded.
  - split; vm_compute; reflexivity.
Defined.

(** C2 fails as stated: the photo is loaded, then loaded again; both runs
    of the pipeline succeed and the history holds two snapshots. *)
Lemma second_generation_two_snapshots :
  generates "speck.png" Reference.start /\
  generates "speck.png" loaded /\
  loaded = generateColoringPage "speck.png" Reference.start /\
  length (coloringPageHistory (generateColoringPage "speck.png" loaded)) = 2%nat.
Proof. unfold generates. split_and!; vm_compute; reflexivity. Qed.

(** The state after the photo has been loaded and a line has been drawn
    along its top row. *)
Definition stroke : list Event :=
  [MousePress LeftButton (mkQPoint 0 0); MouseMove (mkQPoint 2 0);
   MouseRelease LeftButton (mkQPoint 2 0)].

Lemma snapshots_are_independent_copies_witness :
  NoDup (data (coloringPage (run stroke loaded)) :: historyLocs (run stroke loaded)) /\
  (forall img, drawingImage (run stroke loaded) = Some img ->
     bits img ∉ historyLocs (run stroke loaded)) /\
  (forall p, commits p (run stroke loaded) ->
     JustCommitted (mouseDoubleClickEvent p (run stroke loaded))) /\
  (forall path, generates path (run stroke loaded) ->
     JustCommitted (generateColoringPage path (run stroke loaded))) /\
  ((1 < length (coloringPageHistory (run stroke loaded)))%nat ->
     JustCommitted (undoLastAction (run stroke loaded))) /\
  (forall p, snapshots (mouseMoveEvent p (run stroke loaded)) =
             snapshots (run stroke loaded)) /\
  (forall p, snapshots (run stroke loaded) `prefix_of`
             snapshots (mouseDoubleClickEvent p (run stroke loaded))).
Proof.
  apply (snapshots_are_independent_copies (run stroke loaded)).
  apply reachable_run, reachable_loaded.
Defined.

(** C5 fails as stated: after the photo is loaded and a line is drawn, an
    undo finds one snapshot and does nothing, and the top snapshot is not
    equal to the working raster, which holds the line. *)
Lemma undo_after_stroke_top_differs :
  length (coloringPageHistory (run stroke loaded)) = 1%nat /\
  last (snapshots (undoLastAction (run stroke loaded))) <>
    Some (workingRaster (undoLastAction (run stroke loaded))).
Proof. split; vm_compute; [reflexivity | discriminate]. Qed.

Lemma drawing_commits_nothing_witness :
  coloringPageHistory (run stroke loaded) = coloringPageHistory loaded /\
  snapshots (run stroke loaded) = snapshots loaded /\
  ((1 < length (coloringPageHistory loaded))%nat ->
     coloringPageHistory (undoLastAction (run stroke loaded)) =
       removelast (coloringPageHistory loaded) /\
     snapshots (undoLastAction (run stroke loaded)) = removelast (snapshots loaded) /\
     last (removelast (snapshots loaded)) =
       Some (workingRaster (undoLastAction (run stroke loaded)))) /\
  ((length (coloringPageHistory loaded) <= 1)%nat ->
     undoLastAction (run stroke loaded) = run stroke loaded).
Proof.
  apply (drawing_commits_nothing loaded stroke).
  - apply reachable_loaded.
  - reflexivity.
Defined.

(** The state after the photo has been loaded and its white region filled
    with red. *)
Definition painted : Generator :=
  run [ColorPicked (mkQColor 255 0 0); MouseDoubleClick (mkQPoint 0 0)] loaded.

(** C8 fails as stated.  After a fill and a stroke, the undo does not go
    back to the raster of the fill: it removes the snapshot of the fill and
    restores the raster as generated.  After a stroke on the raster as
    generated, the undo does nothing and the stroke stays. *)
Lemma undo_after_stroke_not_last_fill :
  JustCommitted painted /\
  workingRaster (undoLastAction (run stroke painted)) <> workingRaster painted /\
  workingRaster (undoLastAction (run stroke painted)) = workingRaster loaded /\
  workingRaster (undoLastAction (run stroke loaded)) = workingRaster (run stroke loaded) /\
  workingRaster (run stroke loaded) <> workingRaster loaded.
Proof. split_and!; vm_compute; (reflexivity || discriminate). Qed.

Lemma fill_fault_changes_nothing_witness :
  shown (mouseDoubleClickEvent (mkQPoint 5 5) loaded) =
    shown loaded ++ [critical "Error"
      ("Failed to perform flood fill: " ++ "Seed point is outside of image")] /\
  coloringPage (mouseDoubleClickEvent (mkQPoint 5 5) loaded) = coloringPage loaded /\
  workingRaster (mouseDoubleClickEvent (mkQPoint 5 5) loaded) = workingRaster loaded /\
  coloringPageHistory (mouseDoubleClickEvent (mkQPoint 5 5) loaded) =
    coloringPageHistory loaded /\
  snapshots (mouseDoubleClickEvent (mkQPoint 5 5) loaded) = snapshots loaded /\
  drawingImage (mouseDoubleClickEvent (mkQPoint 5 5) loaded) = drawingImage loaded.
Proof.
  apply (fill_fault_changes_nothing ref_floodFill_contract loaded (mkQPoint 5 5)
           "Seed point is outside of image").
  - vm_compute. by eexists.
  - reflexivity.
  - vm_compute. reflexivity.
Defined.

Lemma fill_is_idempotent_witness :
  workingRaster (mouseDoubleClickEvent (mkQPoint 0 0)
                   (mouseDoubleClickEvent (mkQPoint 0 0) loaded)) =
  workingRaster (mouseDoubleClickEvent (mkQPoint 0 0) loaded).
Proof.
  apply (fill_is_idempotent ref_floodFill_contract loaded (mkQPoint 0 0)).
  apply reachable_loaded.
Defined.

(** C1 (the code departs from the claim), on the speck photo.  The
    thresholded image is set at the centre pixel.  No contour is left after
    post-processing, so the mask of step 7, the thresholded image
    intersected with the filled and closed contours, is zero there.  The
    raster rendered by lines 241-242 is black at the centre all the same: it
    is painted from the thresholded image alone, and the intersection
    computed at line 239 is overwritten at line 241. *)
Theorem speck_rendered_outside_intersection :
  exists page binaryImage g',
    beforeRepair Reference.speck Reference.start =
      (Ok (page, binaryImage, []), g') /\
    pixelAt binaryImage (1, 1) = Some [255] /\
    (exists mask, intersectedMask binaryImage [] = Ok mask /\
                  pixelAt mask (1, 1) = Some [0]) /\
    pixelAt page (1, 1) = Some [0; 0; 0].
Proof.
  eexists _, _, _. split; [vm_compute; reflexivity|].
  split; [vm_compute; reflexivity|]. split; [|vm_compute; reflexivity].
  eexists. split; vm_compute; reflexivity.
Qed.

Lemma target_size_fits_canvas_witness :
  let w := fst (targetSize 400 300 800 500) in
  let h := snd (targetSize 400 300 800 500) in
  0 <= w <= 800 /\ 0 <= h <= 500 /\
  ((w = 800 /\ h * 400 <= 800 * 300 < (h + 2) * 400) \/
   (h = 500 /\ w * 300 <= 500 * 400 < (w + 2) * 300)).
Proof.
  apply (target_size_fits_canvas 400 300 800 500); unfold small; lia.
Defined.

(** C7 fails as stated.  A photo of 3 x 2 pixels in an area of 100 x 100
    gets 100 x 66, which is not in the ratio 3 : 2.  A photo of 300 x 2
    gets 100 x 0.  A photo of 1 x 49 in an area of 100 x 49, which it fits
    as it is, gets 0 x 49: the product of 49 and the rounded quotient 1/49
    is below 1. *)
Lemma target_size_not_proportional :
  targetSize 3 2 100 100 = (100, 66) /\ 100 * 2 <> 66 * 3 /\
  targetSize 300 2 100 100 = (100, 0) /\
  targetSize 1 49 100 49 = (0, 49).
Proof. split_and!; vm_compute; (reflexivity || discriminate). Qed.

(** The model of doubles computes the sizes the machine computes, on photos
    and areas of common and of extreme proportions. *)
Lemma targetSize_as_on_hardware :
  Forall (fun '(c, r, w, h) => targetSize c r w h = Hardware.targetSize c r w h)
    [(400, 300, 800, 600); (1920, 1080, 1366, 768); (4000, 3000, 1024, 700);
     (3, 2, 100, 100); (300, 2, 100, 100); (1, 49, 100, 49); (1, 75, 3, 1000);
     (1, 98, 500, 196); (7, 3, 1000, 10); (640, 480, 16777215, 16777215);
     (16777215, 1, 16777215, 16777215); (1, 16777215, 16777215, 16777215);
     (4999, 7001, 1280, 1024); (333, 777, 5000, 3); (1, 1, 0, 0);
     (1, 1048576, 2048, 1200); (1, 1048576, 2048, 16777215);
     (1, 1048576, 2047, 1200); (3, 16777215, 384, 100)].
Proof. repeat constructor; vm_compute; reflexivity. Qed.

(** A photo of 1 x 1048576 pixels in an area 2048 wide has the
    proportional height 2^31: the cast of line 197 is out of range, the
    height is [INT_MIN] and the target size is 2048 by [INT_MIN], whatever
    the height of the area.  With an area 2047 wide the cast is in range. *)
Lemma target_size_out_of_int_range :
  targetSize 1 1048576 2048 1200 = (2048, -2147483648) /\
  targetSize 1 1048576 2048 16777215 = (2048, -2147483648) /\
  targetSize 1 16777215 16777215 16777215 = (16777215, -2147483648) /\
  targetSize 1 1048576 2047 1200 = (0, 1200).
Proof. split_and!; vm_compute; reflexivity. Qed.

(** ** More of what the handlers keep and change *)

Section Extras.

Context {cv : OpenCV} {qt : Qt}.

(** A computation leaves an observation of the state as it was, whether
    it returns or throws. *)
Definition preserves {A B} (f : Generator -> B) (m : M A) : Prop :=
  forall g, f (snd (m g)) = f g.

Lemma preserves_ret {A B} (f : Generator -> B) (a : A) : preserves f (ret a).
Proof. by intros g. Qed.

Lemma preserves_call {A B} (f : Generator -> B) (r : Result A) :
  preserves f (call r).
Proof. by intros g. Qed.

Lemma preserves_gets {A B} (f : Generator -> B) (h : Generator -> A) :
  preserves f (gets h).
Proof. by intros g. Qed.

Lemma preserves_bind {A B C} (f : Generator -> C) (m : M A) (k : A -> M B) :
  preserves f m -> (forall a, preserves f (k a)) -> preserves f (bind m k).
Proof.
  intros Hm Hk g. unfold bind. specialize (Hm g).
  destruct (m g) as [[a|e] g1]; simpl in *; [|done].
  by rewrite (Hk a g1).
Qed.

Lemma preserves_forEach {A B C} (f : Generator -> C) (k : A -> M B) (l : list A) :
  (forall a, preserves f (k a)) -> preserves f (forEach k l).
Proof.
  intros Hk. induction l as [|a l IH]; simpl.
  - apply preserves_ret.
  - apply preserves_bind; [apply Hk|]. intros b.
    apply preserves_bind; [apply IH|]. intros bs. apply preserves_ret.
Qed.

(** The settings of the tools and what the user has been told. *)
Definition settings (g : Generator) : QColor * bool * bool * QPoint * list MessageBox :=
  (fillColor g, fillToolEnabled g, drawing g, lastPoint g, shown g).

Lemma settings_setFixedSize w h : preserves settings (modify (setFixedSize w h)).
Proof. by intros g. Qed.

Lemma settings_assignColoringPage value :
  preserves settings (assignColoringPage value).
Proof. by intros g. Qed.

Lemma settings_writeColoringPage px : preserves settings (writeColoringPage px).
Proof. by intros g. Qed.

Ltac quiet :=
  repeat first
    [ apply preserves_ret | apply preserves_call | apply preserves_gets
    | apply settings_setFixedSize | apply settings_assignColoringPage
    | apply settings_writeColoringPage
    | apply preserves_forEach; intros ?
    | apply preserves_bind; [| intros ?] ].

Lemma settings_extractOutline image : preserves settings (extractOutline image).
Proof.
  unfold extractOutline, postProcessContours, readColoringPage. quiet.
  destruct (targetSize _ _ _ _) as [newWidth newHeight]. quiet.
Qed.

Lemma settings_intersectContours contours :
  preserves settings (intersectContours contours).
Proof. unfold intersectContours, readColoringPage. quiet. Qed.

Lemma settings_renderOutline image binaryImage :
  preserves settings (renderOutline image binaryImage).
Proof. unfold renderOutline, readColoringPage. quiet. Qed.

Lemma settings_repairGaps contours : preserves settings (repairGaps contours).
Proof.
  unfold repairGaps, readColoringPage. quiet. destruct (Qltb _ _); quiet.
Qed.

Lemma settings_outline image : preserves settings (outline image).
Proof.
  unfold outline. apply preserves_bind; [apply settings_extractOutline|].
  intros [[image' binaryImage] contours].
  apply preserves_bind; [apply settings_intersectContours|]. intros _.
  apply preserves_bind; [apply settings_renderOutline|]. intros _.
  apply preserves_bind; [apply settings_repairGaps|]. intros _.
  apply preserves_ret.
Qed.

Lemma settings_pipeline image : preserves settings (pipeline image).
Proof.
  unfold pipeline. apply preserves_bind; [apply settings_outline|].
  intros image' g. by rewrite publish_eq.
Qed.

Lemma settings_inv g g' :
  settings g' = settings g ->
  fillColor g' = fillColor g /\ fillToolEnabled g' = fillToolEnabled g /\
  drawing g' = drawing g /\ lastPoint g' = lastPoint g /\ shown g' = shown g.
Proof. unfold settings. intros [= -> -> -> -> ->]. done. Qed.

Definition isColorPicked (e : Event) : bool :=
  match e with ColorPicked _ => true | _ => false end.

Definition isFillToggled (e : Event) : bool :=
  match e with FillToggled _ => true | _ => false end.

Lemma settings_generateColoringPage path g :
  fillColor (generateColoringPage path g) = fillColor g /\
  fillToolEnabled (generateColoringPage path g) = fillToolEnabled g.
Proof.
  unfold generateColoringPage. destruct (empty _); [done|].
  pose proof (settings_pipeline (imread path) g) as Hs.
  destruct (pipeline (imread path) g) as [[[]|what] g']; simpl in Hs;
    apply settings_inv in Hs as (Hc & Ht & _); done.
Qed.

Lemma settings_handle e g :
  (isColorPicked e = false -> fillColor (handle e g) = fillColor g) /\
  (isFillToggled e = false -> fillToolEnabled (handle e g) = fillToolEnabled g).
Proof.
  destruct e; simpl; split; try done; intros _.
  1,2: unfold mousePressEvent; by destruct (_ && _).
  1,2: unfold mouseMoveEvent; destruct (drawingImage g); [|done];
       destruct (drawing g); [|done]; by destruct (rect_contains _ _).
  1,2: unfold mouseReleaseEvent; by destruct (_ && _).
  1,2: unfold mouseDoubleClickEvent; destruct (drawingImage g); [|done];
       destruct (fillToolEnabled g) eqn:Et; [|done];
       destruct (fault _); [by simpl|];
       rewrite exec_wrap_snapshot; unfold exec at 1;
       by rewrite snapshotColoringPage_eq.
  1,2: unfold browseImage; case_bool_decide; [done|];
       by destruct (settings_generateColoringPage imagePath g).
  1,2: unfold saveImage; case_bool_decide; [done|];
       destruct (drawingImage g); [destruct (save _ _ _ _)|]; done.
  1,2: unfold undoLastAction; by destruct (1 <? _)%nat.
Qed.

(** The fill colour is changed by a colour pick and by nothing else, and
    the tool mode by a toggle of the fill tool and by nothing else: every
    other event, a generation included, leaves them as they are. *)
Theorem settings_change_on_request_only (events : list Event) (g : Generator) :
  (forallb (fun e => negb (isColorPicked e)) events = true ->
   fillColor (run events g) = fillColor g) /\
  (forallb (fun e => negb (isFillToggled e)) events = true ->
   fillToolEnabled (run events g) = fillToolEnabled g).
Proof.
  revert g. induction events as [|e events IH]; intros g; [done|].
  simpl. destruct (IH (handle e g)) as [IHc IHt].
  destruct (settings_handle e g) as [Hc Ht].
  split; intros Hall; apply andb_true_iff in Hall as [He Hall];
    apply negb_true_iff in He.
  - by rewrite (IHc Hall), (Hc He).
  - by rewrite (IHt Hall), (Ht He).
Qed.

(** A generation that fails shows one error box and leaves the history
    stack, the bytes of its snapshots and the image on display as they were:
    with the text of the exception when a stage of the pipeline threw,
    without when the photo could not be read. *)
Theorem failed_generation_keeps_history (path : string) (g : Generator) :
  reachable g -> ~ generates path g ->
  (exists text, shown (generateColoringPage path g) =
                  shown g ++ [critical "Error" text] /\
     (empty (imread path) = true /\ text = "Failed to load the image." \/
      exists what, fst (pipeline (imread path) g) = Throw what /\
                   text = "Failed to generate coloring page: " +:+ what)) /\
  coloringPageHistory (generateColoringPage path g) = coloringPageHistory g /\
  snapshots (generateColoringPage path g) = snapshots g /\
  drawingImage (generateColoringPage path g) = drawingImage g.
Proof.
  intros Hr Hn. apply reachable_Good in Hr as [Hg _].
  unfold generates in Hn. unfold generateColoringPage.
  destruct (empty (imread path)) eqn:He.
  - split; [|done]. eexists. split; [done|]. by left.
  - pose proof (settings_pipeline (imread path) g) as Hs.
    destruct (pipeline (imread path) g) as [[[]|what] g'] eqn:E.
    + exfalso. by apply Hn.
    + destruct (pipeline_Throw _ _ _ _ Hg E) as [_ F].
      simpl in Hs. apply settings_inv in Hs as (_ & _ & _ & _ & Hs).
      split; [|split; [|split]].
      * eexists. split; [simpl; by rewrite Hs|]. right. by exists what.
      * by destruct F.
      * replace (snapshots (show _ g')) with (snapshots g') by done.
        by apply frame_snapshots.
      * by destruct F.
Qed.

(** The view [new QImage(coloringPage.data, ...)] gives of a matrix. *)
Definition viewOf (m : Mat) : QImage :=
  mkQImage (data m) (cols m) (rows m) (cols m * Z.of_nat (channels (type m))).

(** The image on display is a view of the working raster: it has its
    buffer and its size. *)
Definition Synced (g : Generator) : Prop :=
  drawingImage g = Some (viewOf (coloringPage g)).










(** The segments of a gesture, drawn one after the other: from [from] to
    the first point, from the first point to the second, and so on. *)
Fixpoint strokes (w h : Z) (c : QColor) (px : list Pixel) (from : QPoint)
    (ps : list QPoint) : list Pixel :=
  match ps with
  | [] => px
  | p :: ps' => strokes w h c (drawLine w h px c from p) p ps'
  end.

(** The points of a gesture in the coordinates of the label, without those
    that fall outside of it. *)
Definition insideLabel (area : QLabel) (ps : list QPoint) : list QPoint :=
  List.filter (rect_contains area) (map (fun p => QPoint_sub p (pos area)) ps).

Lemma withPixels_withPixels m a b : withPixels (withPixels m a) b = withPixels m b.
Proof. done. Qed.

Lemma last_after_cons {A} (l : list A) (x d : A) :
  List.last (x :: l) d = List.last l x.
Proof.
  revert x d. induction l as [|y l IH]; intros x d; [done|].
  change (List.last (y :: l) d = List.last (y :: l) x). by rewrite !IH.
Qed.

Lemma moves_draw ps : forall g,
  Synced g -> drawing g = true ->
  workingRaster (run (map MouseMove ps) g) =
    withPixels (workingRaster g)
      (strokes (cols (coloringPage g)) (rows (coloringPage g)) (fillColor g)
         (ipixels (workingRaster g)) (lastPoint g)
         (insideLabel (drawingArea g) ps)) /\
  lastPoint (run (map MouseMove ps) g) =
    List.last (insideLabel (drawingArea g) ps) (lastPoint g) /\
  coloringPage (run (map MouseMove ps) g) = coloringPage g /\
  coloringPageHistory (run (map MouseMove ps) g) = coloringPageHistory g.
Proof.
  induction ps as [|p ps IH]; intros g Hs Hd.
  - simpl. by rewrite withPixels_id.
  - simpl. unfold insideLabel. simpl. fold (insideLabel (drawingArea g) ps).
    destruct (rect_contains (drawingArea g) (QPoint_sub p (pos (drawingArea g))))
      eqn:Ei.
    + assert (mouseMoveEvent p g =
              set_lastPoint (QPoint_sub p (pos (drawingArea g)))
                (set_heap (<[data (coloringPage g) :=
                    drawLine (cols (coloringPage g)) (rows (coloringPage g))
                      (buffer g (data (coloringPage g))) (fillColor g)
                      (lastPoint g) (QPoint_sub p (pos (drawingArea g)))]>
                    (heap g)) g)) as ->
        by (unfold mouseMoveEvent; by rewrite Hs, Hd, Ei).
      set (g1 := set_lastPoint _ _).
      assert (Synced g1) as Hs1 by done.
      destruct (IH g1 Hs1 Hd) as (Ew & El & Ep & Eh).
      rewrite Ew, El, Ep, Eh. split_and!; try done.
      * unfold workingRaster, imageOf, buffer, g1. simpl.
        rewrite lookup_insert_eq. simpl. done.
      * symmetry. apply last_after_cons.
    + assert (mouseMoveEvent p g = g) as ->
        by (unfold mouseMoveEvent; by rewrite Hs, Hd, Ei).
      by apply IH.
Qed.

(** A drag with the left button draws a polyline with the fill colour into
    the working raster: a segment from the point of the press to the first
    point of the gesture inside the label, and from each point inside the
    label to the next one.  Points outside the label are skipped.  The
    segments are drawn whatever the tool mode is, and nothing is pushed on
    the history. *)
Theorem drag_draws_polyline (g : Generator) (a : QPoint) (ps : list QPoint) :
  Synced g ->
  workingRaster (run (MousePress LeftButton a :: map MouseMove ps) g) =
    withPixels (workingRaster g)
      (strokes (cols (coloringPage g)) (rows (coloringPage g)) (fillColor g)
         (ipixels (workingRaster g)) (QPoint_sub a (pos (drawingArea g)))
         (insideLabel (drawingArea g) ps)) /\
  lastPoint (run (MousePress LeftButton a :: map MouseMove ps) g) =
    List.last (insideLabel (drawingArea g) ps) (QPoint_sub a (pos (drawingArea g))) /\
  coloringPageHistory (run (MousePress LeftButton a :: map MouseMove ps) g) =
    coloringPageHistory g.
Proof.
  intros Hs. simpl. unfold mousePressEvent.
  replace (bool_decide (is_Some (drawingImage g))) with true
    by (symmetry; apply bool_decide_eq_true; rewrite Hs; by eexists).
  simpl. set (g1 := set_lastPoint _ _).
  assert (Synced g1) as Hs1 by done.
  destruct (moves_draw ps g1 Hs1 eq_refl) as (Ew & El & _ & Eh).
  by rewrite Ew, El, Eh.
Qed.

(** While the button is up, moving the mouse changes nothing. *)
Lemma moves_without_press ps g :
  drawing g = false -> run (map MouseMove ps) g = g.
Proof.
  intros Hd. induction ps as [|p ps IH]; [done|]. simpl.
  unfold mouseMoveEvent at 1. rewrite Hd.
  destruct (drawingImage g); by rewrite IH.
Qed.

(** The events that can push a snapshot. *)
Definition pushes (e : Event) : bool :=
  match e with
  | MouseDoubleClick _ | Browse _ => true
  | _ => false
  end.

Lemma snapshots_length g : length (snapshots g) = length (coloringPageHistory g).
Proof. apply length_map. Qed.

(** Every event leaves the history as it was, pushes one snapshot (a fill
    or a generation, and the snapshot holds the bytes of the working raster
    at that moment), or removes the top one (an undo): the snapshots below
    keep their bytes in every case. *)
Theorem history_changes_like_a_stack (e : Event) (g : Generator) :
  reachable g ->
  snapshots (handle e g) = snapshots g \/
  (pushes e = true /\
   snapshots (handle e g) = snapshots g ++ [workingRaster (handle e g)]) \/
  (e = UndoAction /\ (1 < length (snapshots g))%nat /\
   snapshots (handle e g) = removelast (snapshots g)).
Proof.
  intros Hr. apply reachable_Good in Hr as [Hg _]. destruct e; simpl.
  - left. unfold mousePressEvent. by destruct (_ && _).
  - left. by destruct (mouseMoveEvent_snapshots p g Hg).
  - left. unfold mouseReleaseEvent. by destruct (_ && _).
  - destruct (drawingImage g) as [img|] eqn:Ei;
      [|left; unfold mouseDoubleClickEvent; by rewrite Ei].
    destruct (fillToolEnabled g) eqn:Et;
      [|left; unfold mouseDoubleClickEvent; by rewrite Ei, Et].
    destruct (fault (fillAt p g)) as [what|] eqn:Ef.
    + left. unfold mouseDoubleClickEvent. rewrite Ei, Et, Ef.
      destruct (stable_writeColoringPage (filled (fillAt p g)) g Hg) as [_ F].
      apply frame_snapshots in F.
      by replace (snapshots (show _ _)) with (snapshots g).
    + right. left. split; [done|].
      assert (commits p g) as Hc by (split; [by eexists | done]).
      by destruct (fill_commit_snapshots p g Hg Hc).
  - unfold browseImage. case_bool_decide; [by left|].
    unfold generateColoringPage.
    destruct (empty (imread imagePath)) eqn:He; [by left|].
    destruct (pipeline (imread imagePath) g) as [[[]|what] g'] eqn:E.
    + right. left. split; [done|].
      destruct (pipeline_Ok _ _ _ Hg E) as (image' & g1 & _ & I1 & F1 & ->).
      destruct (publish_snapshots image' g1 I1) as (-> & -> & _).
      by rewrite (frame_snapshots _ _ F1).
    + left. destruct (pipeline_Throw _ _ _ _ Hg E) as [_ F].
      replace (snapshots (show _ g')) with (snapshots g') by done.
      by apply frame_snapshots.
  - left. unfold saveImage. case_bool_decide; [done|].
    destruct (drawingImage g); [destruct (save _ _ _ _)|]; done.
  - by left.
  - by left.
  - destruct (decide (1 < length (coloringPageHistory g))%nat) as [Hl|Hl].
    + right. right. rewrite snapshots_length.
      by destruct (undo_effective g Hg Hl) as (_ & ? & _).
    + left. rewrite undo_noop by lia. done.
  - by left.
Qed.

Lemma reachable_undos k g : reachable g -> reachable (Nat.iter k undoLastAction g).
Proof.
  intros Hr. induction k as [|k IH]; [done|]. simpl.
  by apply (reachable_handle UndoAction).
Qed.

(** Undo requested [k] times removes the [k] top snapshots, but never the
    first one; after the first undo that removes a snapshot the working
    raster holds the bytes of the snapshot then on top. *)
Theorem repeated_undo (g : Generator) (k : nat) :
  reachable g -> coloringPageHistory g <> [] ->
  snapshots (Nat.iter k undoLastAction g) =
    take (Nat.max 1 (length (coloringPageHistory g) - k)) (snapshots g) /\
  ((1 <= k)%nat -> (2 <= length (coloringPageHistory g))%nat ->
   JustCommitted (Nat.iter k undoLastAction g)).
Proof.
  intros Hr Hne.
  assert (1 <= length (coloringPageHistory g))%nat as Hn
    by (destruct (coloringPageHistory g); [done | simpl; lia]).
  induction k as [|k [IHs IHj]].
  - split; [|lia]. rewrite Nat.sub_0_r, Nat.max_r by lia.
    rewrite <- snapshots_length. by rewrite firstn_all.
  - simpl. set (g' := Nat.iter k undoLastAction g) in *.
    pose proof (reachable_Good _ (reachable_undos k g Hr)) as [Hg' _]. fold g' in Hg'.
    assert (length (coloringPageHistory g') =
            Nat.max 1 (length (coloringPageHistory g) - k)) as Hl.
    { rewrite <- snapshots_length, IHs, length_take, snapshots_length. lia. }
    destruct (decide (2 <= length (coloringPageHistory g) - k)%nat) as [Hm|Hm].
    + destruct (undo_effective g' Hg' ltac:(lia)) as (_ & Es & Ej).
      split; [|done]. rewrite Es, IHs.
      replace (Nat.max 1 (length (coloringPageHistory g) - k))
        with (S (length (coloringPageHistory g) - S k)) by lia.
      replace (Nat.max 1 (length (coloringPageHistory g) - S k))
        with (length (coloringPageHistory g) - S k)%nat by lia.
      apply removelast_firstn. rewrite snapshots_length. lia.
    + rewrite undo_noop by lia. split.
      * rewrite IHs. f_equal. lia.
      * intros _ H2. apply IHj; lia.
Qed.

(** The history outlives the photo: an undo right after another photo has
    been loaded removes the snapshot of the new photo and brings back the
    raster of the top snapshot of before, whatever its size. *)
Theorem undo_after_second_photo (path : string) (g : Generator) :
  reachable g -> generates path g -> coloringPageHistory g <> [] ->
  snapshots (undoLastAction (generateColoringPage path g)) = snapshots g /\
  last (snapshots g) = Some (workingRaster (undoLastAction (generateColoringPage path g))).
Proof.
  intros Hr Hgen Hne. pose proof (reachable_Good _ Hr) as [Hg _].
  destruct (generate_Ok path g Hg Hgen) as (image' & g1 & _ & I1 & F1 & Eg).
  assert (Inv (generateColoringPage path g)) as Hg'
    by (rewrite Eg; by apply publish_Inv).
  assert (snapshots (generateColoringPage path g) =
          snapshots g ++ [workingRaster (generateColoringPage path g)]) as Es.
  { rewrite Eg. destruct (publish_snapshots image' g1 I1) as (-> & -> & _).
    by rewrite (frame_snapshots _ _ F1). }
  assert (1 < length (coloringPageHistory (generateColoringPage path g)))%nat as Hl.
  { rewrite <- snapshots_length, Es, length_app, snapshots_length. simpl.
    destruct (coloringPageHistory g); [done | simpl; lia]. }
  destruct (undo_effective _ Hg' Hl) as (_ & Eu & Ej).
  unfold JustCommitted in Ej. rewrite Eu, Es, removelast_last in Ej |- *.
  done.
Qed.

(** The point of the working raster a click at [p] lands on. *)
Definition seedOf (p : QPoint) (g : Generator) : Point :=
  (qx (QPoint_sub p (pos (drawingArea g))), qy (QPoint_sub p (pos (drawingArea g)))).

(** The fill colour as a pixel of the working raster. *)
Definition fillPixel (g : Generator) : Pixel :=
  scalarPixel (type (coloringPage g))
    [red (fillColor g); green (fillColor g); blue (fillColor g)].

(** A fill that commits was clicked inside the working raster; afterwards
    the pixel under the click has the fill colour, every other pixel is as
    it was or had the colour of the clicked pixel and now has the fill
    colour, the raster keeps its size, and the history has one more
    snapshot, with the bytes of the raster. *)
Theorem fill_colours_the_region (laws : FloodFillContract cv)
    (g : Generator) (p : QPoint) :
  reachable g -> commits p g ->
  inside (workingRaster g) (seedOf p g) = true /\
  pixelAt (workingRaster (mouseDoubleClickEvent p g)) (seedOf p g) = Some (fillPixel g) /\
  (forall i : nat,
     ipixels (workingRaster (mouseDoubleClickEvent p g)) !! i =
       ipixels (workingRaster g) !! i \/
     (ipixels (workingRaster (mouseDoubleClickEvent p g)) !! i = Some (fillPixel g) /\
      ipixels (workingRaster g) !! i = pixelAt (workingRaster g) (seedOf p g))) /\
  size (workingRaster (mouseDoubleClickEvent p g)) = size (workingRaster g) /\
  snapshots (mouseDoubleClickEvent p g) =
    snapshots g ++ [workingRaster (mouseDoubleClickEvent p g)].
Proof.
  intros Hr Hc. pose proof (reachable_Good _ Hr) as [Hg _].
  pose proof Hc as ([img Hi] & Ht & Hf).
  destruct (fill_armed p g img Hi Ht) as (_ & _ & _ & _ & _ & Ew).
  specialize (Ew Hg). rewrite Ew.
  unfold fillAt in Hf |- *. cbv zeta in Hf |- *.
  fold (workingRaster g) in Hf |- *. fold (seedOf p g) in Hf |- *.
  pose proof (floodFill_seed _ laws _ _ _ _ Hf) as Hseed.
  pose proof (fun i => floodFill_region _ laws _ _ _ _ i Hf) as Hreg.
  change (itype (workingRaster g)) with (type (coloringPage g)) in Hseed, Hreg.
  fold (fillPixel g) in Hseed, Hreg.
  split_and!.
  - unfold pixelAt in Hseed.
    by destruct (inside (withPixels (workingRaster g) _) (seedOf p g)) eqn:E.
  - done.
  - intros i. apply Hreg.
  - done.
  - destruct (fill_commit_snapshots p g Hg Hc) as [Es _]. by rewrite Es, Ew.
Qed.


Lemma forEach_skip {A} (f : A -> M unit) (l : list A) (g : Generator) :
  Forall (fun a => f a = ret tt) l ->
  forEach f l g = (Ok (map (fun _ => tt) l), g).
Proof.
  induction 1 as [|a l Ha _ IH]; [done|].
  simpl. unfold bind. rewrite Ha. unfold ret at 1. by rewrite IH.
Qed.

Lemma Qltb_lt (a b : Q) : Qltb a b = true <-> (a < b)%Q.
Proof.
  unfold Qltb. rewrite negb_true_iff. split.
  - intros H. apply Qnot_le_lt. intros Hle. apply Qle_bool_iff in Hle. congruence.
  - intros H. destruct (Qle_bool b a) eqn:E; [|done].
    apply Qle_bool_iff in E. by apply Qlt_not_le in H.
Qed.



(** [repairGaps] touches the working raster only for contours of area
    below 50: when no contour is that small, the state after it is the
    state before it. *)
Theorem repairGaps_skips_large (contours : list Contour) (g : Generator) :
  (forall c, In c contours -> ~ (contourArea c < 50 # 1)%Q) ->
  repairGaps contours g = (Ok tt, g).
Proof.
  intros Hall. unfold repairGaps. cbv zeta. unfold bind.
  rewrite forEach_skip; [done|].
  apply List.Forall_forall. intros c Hc.
  destruct (Qltb (contourArea c) (50 # 1)) eqn:E; [|done].
  apply Qltb_lt in E. by apply Hall in E.
Qed.

(** The target size has no zero side unless the photo is very elongated
    for the drawing area: both sides are at least one pixel when the
    proportional value of each side is at least two and the proportional
    height is below 2^31, so that the cast of line 197 is in the range of
    [int]; and a photo more than [maxWidth] times as wide as it is high
    gets the height zero, which [cv::resize] refuses. *)
Theorem target_size_positive (cols rows maxWidth maxHeight : Z) :
  0 < cols -> small cols -> 0 < rows -> small rows ->
  0 <= maxWidth -> small maxWidth -> 0 <= maxHeight -> small maxHeight ->
  (2 * cols <= maxWidth * rows -> 2 * rows <= maxHeight * cols ->
   maxWidth * rows < 2 ^ 31 * cols ->
   1 <= fst (targetSize cols rows maxWidth maxHeight) /\
   1 <= snd (targetSize cols rows maxWidth maxHeight)) /\
  (maxWidth * rows < cols ->
   targetSize cols rows maxWidth maxHeight = (maxWidth, 0)).
Proof.
  intros Hc0 Hc Hr0 Hr HW0 HW HH0 HH. split.
  - intros H1 H2 Hfit.
    destruct (targetSize_in_range cols rows maxWidth maxHeight
                Hc0 Hc Hr0 Hr HW0 HW HH0 HH Hfit)
      as (h0 & w0 & (Hh0 & Hh1 & Hh2) & (Hw0 & Hw1 & Hw2) & ->).
    destruct (Z.ltb_spec maxHeight h0) as [Hlt|Hge]; simpl; nia.
  - intros Hwide.
    destruct (targetSize_in_range cols rows maxWidth maxHeight
                Hc0 Hc Hr0 Hr HW0 HW HH0 HH ltac:(nia))
      as (h0 & w0 & (Hh0 & Hh1 & Hh2) & _ & ->).
    assert (h0 = 0) as -> by nia.
    destruct (Z.ltb_spec maxHeight 0) as [Hlt|Hge]; [lia | reflexivity].
Qed.

Definition isLeftPress (e : Event) : bool :=
  match e with MousePress LeftButton _ => true | _ => false end.

Definition isMove (e : Event) : bool :=
  match e with MouseMove _ => true | _ => false end.

Lemma drawing_generateColoringPage path g :
  drawing (generateColoringPage path g) = drawing g.
Proof.
  unfold generateColoringPage. destruct (empty _); [done|].
  pose proof (settings_pipeline (imread path) g) as Hs.
  destruct (pipeline (imread path) g) as [[[]|what] g']; simpl in Hs;
    apply settings_inv in Hs as (_ & _ & Hd & _); done.
Qed.

(** No handler but the press of the left button raises the pen. *)
Lemma pen_stays_up e g :
  isLeftPress e = false -> drawing g = false -> drawing (handle e g) = false.
Proof.
  intros He Hd. destruct e; simpl; try done.
  - unfold mousePressEvent. destruct button; [done|by simpl..].
  - unfold mouseMoveEvent. rewrite Hd. by destruct (drawingImage g).
  - unfold mouseReleaseEvent. by destruct (_ && _).
  - unfold mouseDoubleClickEvent. destruct (drawingImage g); [|done].
    destruct (fillToolEnabled g); [|done].
    destruct (fault _); [by simpl|].
    rewrite exec_wrap_snapshot. unfold exec at 1.
    by rewrite snapshotColoringPage_eq.
  - unfold browseImage. case_bool_decide; [done|].
    by rewrite drawing_generateColoringPage.
  - unfold saveImage. case_bool_decide; [done|].
    destruct (drawingImage g); [destruct (save _ _ _ _)|]; done.
  - unfold undoLastAction. destruct (_ <? _)%nat; [|done].
    unfold exec, bind, clone, alloc, modify, gets, wrapColoringPage. by simpl.
Qed.

(** Strokes need the left button: from a state with the pen up, as long
    as the left button is not pressed the pen stays up and every mouse move
    is without effect, so the moves can be dropped from the events. *)
Theorem moves_need_left_press (events : list Event) (g : Generator) :
  drawing g = false ->
  forallb (fun e => negb (isLeftPress e)) events = true ->
  drawing (run events g) = false /\
  run events g = run (List.filter (fun e => negb (isMove e)) events) g.
Proof.
  revert g. induction events as [|e events IH]; intros g Hd; [done|].
  simpl. intros [He Hs]%andb_true_iff. apply negb_true_iff in He.
  pose proof (pen_stays_up e g He Hd) as Hd'.
  destruct (IH (handle e g) Hd' Hs) as [IHd IHr]. split; [done|].
  destruct (isMove e) eqn:Em; simpl; [|done].
  destruct e; try done. simpl in IHr |- *.
  assert (mouseMoveEvent p g = g) as E
    by (unfold mouseMoveEvent; rewrite Hd; by destruct (drawingImage g)).
  rewrite E in IHr |- *. done.
Qed.

(** [saveImage] changes nothing but the message boxes.  With an image on
    display that is a view of the working raster, the bytes handed to
    [QImage::save] are those of the working raster as it is, strokes not
    yet committed included, and the one message tells whether they were
    written; a cancelled dialog shows no message. *)
Theorem save_writes_working_raster (savePath : string) (g : Generator) :
  Synced g ->
  (savePath = "" -> saveImage savePath g = g) /\
  (savePath <> "" ->
   saveImage savePath g =
     show (if save (cols (coloringPage g)) (rows (coloringPage g))
                (ipixels (workingRaster g)) savePath
           then information "Success" "Image saved successfully."
           else critical "Error" "Failed to save the image.") g) /\
  workingRaster (saveImage savePath g) = workingRaster g /\
  snapshots (saveImage savePath g) = snapshots g /\
  Synced (saveImage savePath g).
Proof.
  intros Hs. unfold saveImage. rewrite Hs. simpl.
  case_bool_decide as Hp; [done|].
  split_and!; try done; by destruct (save _ _ _ _).
Qed.

End Extras.

(** ** The controls window and the wiring of [main] *)

Module ImageControlsWindow.

(** The signals of the window, lines 39-42. *)
Inductive Signal :=
| colorPicked (color : QColor)
| fillToggled (checked : bool)
| undoAction.

(** The members of the window.  The style sheet of the button
    [colorPicker] and the check state of the box [fillTool] are what the
    code sets of the two widgets. *)
Record t := mk {
  colorPicker : string;
  fillColor : QColor;
  fillTool : bool
}.

Definition hexDigit (n : Z) : string :=
  substring (Z.to_nat n) 1 "0123456789abcdef".

(** [QColor::name]: the colour as #rrggbb. *)
Definition name (c : QColor) : string :=
  "#" +:+ hexDigit (red c / 16) +:+ hexDigit (red c mod 16)
      +:+ hexDigit (green c / 16) +:+ hexDigit (green c mod 16)
      +:+ hexDigit (blue c / 16) +:+ hexDigit (blue c mod 16).

Definition styleSheet (c : QColor) : string := "background-color: " +:+ name c.

(** Lines 8-33: the colour is [Qt::black], the box is unchecked. *)
Definition new : t :=
  {| colorPicker := styleSheet (mkQColor 0 0 0);
     fillColor := mkQColor 0 0 0;
     fillTool := false |}.

(** [QColorDialog::getColor]: the colour chosen, or, when the dialog is
    cancelled, an invalid colour, whose components are all 0. *)
Definition getColor (chosen : option QColor) : QColor :=
  match chosen with
  | Some c => c
  | None => mkQColor 0 0 0
  end.

(** Lines 45-51 *)
Definition pickColor (chosen : option QColor) (w : t) : t * list Signal :=
  let c := getColor chosen in
  ({| colorPicker := styleSheet c; fillColor := c; fillTool := fillTool w |},
   [colorPicked c]).

(** Lines 53-55 *)
Definition toggleFill (checked : bool) (w : t) : t * list Signal :=
  (w, [fillToggled checked]).

(** Lines 35-37 *)
Definition undoLastAction (w : t) : t * list Signal := (w, [undoAction]).

(** What the user does in the window: press the colour button and close
    the dialog, click the check box, press the undo button. *)
Inductive Click :=
| ColorPickerClicked (chosen : option QColor)
| FillToolClicked
| UndoClicked.

(** The connections of the constructor, lines 13 and 31: the colour button
    to [pickColor], the undo button to [undoLastAction].  No signal of the
    check box is connected, so a click changes its check state and calls
    no slot. *)
Definition clicked (c : Click) (w : t) : t * list Signal :=
  match c with
  | ColorPickerClicked chosen => pickColor chosen w
  | FillToolClicked =>
      ({| colorPicker := colorPicker w; fillColor := fillColor w;
          fillTool := negb (fillTool w) |}, [])
  | UndoClicked => undoLastAction w
  end.

End ImageControlsWindow.

Section Application.

Context {cv : OpenCV} {qt : Qt}.

(** The two windows of [main], lines 317-321.  The controls window that
    the constructor of the generator creates at line 96 is never shown, so
    it gets no click and emits no signal. *)
Record App := mkApp {
  generator : Generator;
  imageControlsWindow : ImageControlsWindow.t
}.

(** Lines 323-325: the signals are connected to the slots of the
    generator. *)
Definition deliver (s : ImageControlsWindow.Signal) : Event :=
  match s with
  | ImageControlsWindow.colorPicked color => ColorPicked color
  | ImageControlsWindow.fillToggled checked => FillToggled checked
  | ImageControlsWindow.undoAction => UndoAction
  end.

(** What happens in the application: an event in the main window, or a
    click in the controls window. *)
Inductive Input :=
| OnGenerator (e : Event)
| OnControls (c : ImageControlsWindow.Click).

(** The events the main window gets from the user and the layout; the
    other three reach it as signals of the controls window only. *)
Definition direct (e : Event) : bool :=
  match e with
  | ColorPicked _ | FillToggled _ | UndoAction => false
  | _ => true
  end.

Definition fromUser (i : Input) : bool :=
  match i with
  | OnGenerator e => direct e
  | OnControls _ => true
  end.

Definition step (i : Input) (a : App) : App :=
  match i with
  | OnGenerator e =>
      {| generator := handle e (generator a);
         imageControlsWindow := imageControlsWindow a |}
  | OnControls c =>
      let '(w, signals) := ImageControlsWindow.clicked c (imageControlsWindow a) in
      {| generator := run (map deliver signals) (generator a);
         imageControlsWindow := w |}
  end.

Definition session (inputs : list Input) (a : App) : App :=
  fold_left (fun a i => step i a) inputs a.

(** The application as [main] starts it. *)
Definition main (area : QLabel) (fillTool : bool) : App :=
  {| generator := init area fillTool;
     imageControlsWindow := ImageControlsWindow.new |}.

(** The events of the generator that an input gives rise to. *)
Definition eventsOf (w : ImageControlsWindow.t) (i : Input) : list Event :=
  match i with
  | OnGenerator e => [e]
  | OnControls c => map deliver (snd (ImageControlsWindow.clicked c w))
  end.

Lemma step_generator i a :
  generator (step i a) = run (eventsOf (imageControlsWindow a) i) (generator a).
Proof.
  destruct i as [e|c]; [done|]. simpl.
  by destruct (ImageControlsWindow.clicked c (imageControlsWindow a)).
Qed.

Lemma run_app l1 l2 g : run (l1 ++ l2) g = run l2 (run l1 g).
Proof. unfold run. by rewrite fold_left_app. Qed.

Lemma eventsOf_no_toggle w i :
  fromUser i = true ->
  forallb (fun e => negb (isFillToggled e)) (eventsOf w i) = true.
Proof.
  destruct i as [e|c]; simpl.
  - by destruct e.
  - by destruct c.
Qed.

Lemma run_no_toggle events g :
  forallb (fun e => negb (isFillToggled e)) events = true ->
  fillToolEnabled (run events g) = fillToolEnabled g.
Proof.
  revert g. induction events as [|e events IH]; intros g; [done|].
  simpl. intros [He Hs]%andb_true_iff. rewrite (IH _ Hs).
  apply settings_handle. by destruct (isFillToggled e).
Qed.

(** A session of the application is a run of the generator: its state is
    reachable, by events without [FillToggled]. *)
Lemma session_run inputs a :
  forallb fromUser inputs = true ->
  exists events,
    generator (session inputs a) = run events (generator a) /\
    forallb (fun e => negb (isFillToggled e)) events = true.
Proof.
  revert a. induction inputs as [|i inputs IH]; intros a; simpl.
  - by exists [].
  - intros [Hi Hs]%andb_true_iff.
    destruct (IH (step i a) Hs) as (events & E & Hn).
    exists (eventsOf (imageControlsWindow a) i ++ events). split.
    + by rewrite E, step_generator, run_app.
    + rewrite forallb_app, Hn, andb_true_r. by apply eventsOf_no_toggle.
Qed.

(** Nothing the user does switches the fill tool: the check box is wired
    to no slot, so [fillToggled] is never emitted and [fillToolEnabled]
    keeps the value it had when the application started, whatever the state
    of the check box.  When that value is false, a double click never
    fills. *)
Theorem fill_tool_is_never_switched (inputs : list Input) (a : App) :
  forallb fromUser inputs = true ->
  reachable (generator a) ->
  reachable (generator (session inputs a)) /\
  fillToolEnabled (generator (session inputs a)) = fillToolEnabled (generator a) /\
  (fillToolEnabled (generator a) = false ->
   forall p, mouseDoubleClickEvent p (generator (session inputs a)) =
             generator (session inputs a)).
Proof.
  intros Hu Hr. destruct (session_run inputs a Hu) as (events & E & Hn).
  assert (fillToolEnabled (generator (session inputs a)) =
          fillToolEnabled (generator a)) as Ef
    by (rewrite E; by apply run_no_toggle).
  split_and!.
  - rewrite E. by apply reachable_run.
  - done.
  - intros Hoff p. unfold mouseDoubleClickEvent. rewrite Ef, Hoff.
    by destruct (drawingImage _).
Qed.

(** The two windows agree on the colour. *)
Definition agree (a : App) : Prop :=
  fillColor (generator a) = ImageControlsWindow.fillColor (imageControlsWindow a) /\
  ImageControlsWindow.colorPicker (imageControlsWindow a) =
    ImageControlsWindow.styleSheet (fillColor (generator a)).

Lemma agree_step i a : fromUser i = true -> agree a -> agree (step i a).
Proof.
  intros Hi [Hc Hs]. destruct i as [e|c]; unfold agree; simpl.
  - assert (fillColor (handle e (generator a)) = fillColor (generator a)) as ->
      by (apply settings_handle; by destruct e).
    done.
  - destruct c as [chosen| |]; simpl; [done|done|].
    assert (fillColor (undoLastAction (generator a)) = fillColor (generator a)) as ->
      by apply (settings_handle UndoAction (generator a)), eq_refl.
    done.
Qed.

(** The colour of the generator is the colour of the controls window, and
    the colour button is styled with its name, from the start of the
    application and after everything the user does; a colour dialog that
    is cancelled sets the colour to black. *)
Theorem windows_agree_on_colour (area : QLabel) (fillTool : bool)
    (inputs : list Input) :
  forallb fromUser inputs = true ->
  agree (session inputs (main area fillTool)) /\
  fillColor (generator (step (OnControls (ImageControlsWindow.ColorPickerClicked None))
                         (session inputs (main area fillTool)))) = mkQColor 0 0 0.
Proof.
  intros Hu. split; [|done].
  assert (agree (main area fillTool)) as H0 by done.
  revert H0 Hu. generalize (main area fillTool).
  induction inputs as [|i inputs IH]; intros a Ha; simpl; [done|].
  intros [Hi Hs]%andb_true_iff. apply IH; [|done]. by apply agree_step.
Qed.

End Application.

(** ** The further properties on concrete runs *)

Lemma settings_change_on_request_only_witness :
  fillColor (run stroke painted) = fillColor painted /\
  fillToolEnabled (run stroke painted) = fillToolEnabled painted.
Proof.
  destruct (settings_change_on_request_only stroke painted) as [Hc Ht].
  split; [apply Hc | apply Ht]; reflexivity.
Defined.

(** The state after the photo has been loaded and the layout has shrunk
    the label to nothing: the next generation throws in [cv::resize]. *)
Definition collapsed : Generator :=
  run [Resized (mkQLabel (mkQPoint 0 0) 0 0)] loaded.

Lemma failed_generation_keeps_history_witness :
  (exists text, shown (generateColoringPage "speck.png" collapsed) =
                  shown collapsed ++ [critical "Error" text] /\
     (empty (imread "speck.png") = true /\ text = "Failed to load the image." \/
      exists what, fst (pipeline (imread "speck.png") collapsed) = Throw what /\
                   text = "Failed to generate coloring page: " +:+ what)) /\
  coloringPageHistory (generateColoringPage "speck.png" collapsed) =
    coloringPageHistory collapsed /\
  snapshots (generateColoringPage "speck.png" collapsed) = snapshots collapsed /\
  drawingImage (generateColoringPage "speck.png" collapsed) = drawingImage collapsed.
Proof.
  apply (failed_generation_keeps_history "speck.png" collapsed).
  - apply reachable_run, reachable_loaded.
  - intros [_ H]. vm_compute in H. discriminate.
Defined.



Lemma drag_draws_polyline_witness :
  let ps := [mkQPoint 2 0; mkQPoint 7 7; mkQPoint 2 2] in
  let g := run (MousePress LeftButton (mkQPoint 0 0) :: map MouseMove ps) loaded in
  insideLabel (drawingArea loaded) ps = [mkQPoint 2 0; mkQPoint 2 2] /\
  workingRaster g =
    withPixels (workingRaster loaded)
      (strokes (cols (coloringPage loaded)) (rows (coloringPage loaded))
         (fillColor loaded) (ipixels (workingRaster loaded))
         (QPoint_sub (mkQPoint 0 0) (pos (drawingArea loaded)))
         (insideLabel (drawingArea loaded) ps)) /\
  lastPoint g =
    List.last (insideLabel (drawingArea loaded) ps)
      (QPoint_sub (mkQPoint 0 0) (pos (drawingArea loaded))) /\
  coloringPageHistory g = coloringPageHistory loaded.
Proof.
  cbv zeta. split; [vm_compute; reflexivity|].
  apply (drag_draws_polyline loaded (mkQPoint 0 0)
           [mkQPoint 2 0; mkQPoint 7 7; mkQPoint 2 2]).
  vm_compute. reflexivity.
Defined.

Lemma history_changes_like_a_stack_witness :
  snapshots (handle UndoAction painted) = snapshots painted \/
  (pushes UndoAction = true /\
   snapshots (handle UndoAction painted) =
     snapshots painted ++ [workingRaster (handle UndoAction painted)]) \/
  (UndoAction = UndoAction /\ (1 < length (snapshots painted))%nat /\
   snapshots (handle UndoAction painted) = removelast (snapshots painted)).
Proof.
  apply (history_changes_like_a_stack UndoAction painted).
  apply reachable_run, reachable_loaded.
Defined.

(** The state after the photo has been loaded and filled three times. *)
Definition thrice : Generator :=
  run [MouseDoubleClick (mkQPoint 0 0); ColorPicked (mkQColor 0 255 0);
       MouseDoubleClick (mkQPoint 1 1); ColorPicked (mkQColor 0 0 255);
       MouseDoubleClick (mkQPoint 2 2)] loaded.

Lemma repeated_undo_witness :
  length (coloringPageHistory thrice) = 4%nat /\
  (snapshots (Nat.iter 2 undoLastAction thrice) =
     take (Nat.max 1 (length (coloringPageHistory thrice) - 2)) (snapshots thrice) /\
   ((1 <= 2)%nat -> (2 <= length (coloringPageHistory thrice))%nat ->
    JustCommitted (Nat.iter 2 undoLastAction thrice))).
Proof.
  split; [vm_compute; reflexivity|].
  apply (repeated_undo thrice 2).
  - apply reachable_run, reachable_loaded.
  - vm_compute. discriminate.
Defined.

Lemma undo_after_second_photo_witness :
  snapshots (undoLastAction (generateColoringPage "speck.png" painted)) =
    snapshots painted /\
  last (snapshots painted) =
    Some (workingRaster (undoLastAction (generateColoringPage "speck.png" painted))).
Proof.
  apply (undo_after_second_photo "speck.png" painted).
  - apply reachable_run, reachable_loaded.
  - split; vm_compute; reflexivity.
  - vm_compute. discriminate.
Defined.

Lemma fill_colours_the_region_witness :
  let g := run [ColorPicked (mkQColor 255 0 0)] loaded in
  let p := mkQPoint 0 0 in
  fillPixel g = [255; 0; 0] /\
  (inside (workingRaster g) (seedOf p g) = true /\
   pixelAt (workingRaster (mouseDoubleClickEvent p g)) (seedOf p g) = Some (fillPixel g) /\
   (forall i : nat,
      ipixels (workingRaster (mouseDoubleClickEvent p g)) !! i =
        ipixels (workingRaster g) !! i \/
      (ipixels (workingRaster (mouseDoubleClickEvent p g)) !! i = Some (fillPixel g) /\
       ipixels (workingRaster g) !! i = pixelAt (workingRaster g) (seedOf p g))) /\
   size (workingRaster (mouseDoubleClickEvent p g)) = size (workingRaster g) /\
   snapshots (mouseDoubleClickEvent p g) =
     snapshots g ++ [workingRaster (mouseDoubleClickEvent p g)]).
Proof.
  cbv zeta. split; [vm_compute; reflexivity|].
  apply (fill_colours_the_region ref_floodFill_contract
           (run [ColorPicked (mkQColor 255 0 0)] loaded) (mkQPoint 0 0)).
  - apply reachable_run, reachable_loaded.
  - vm_compute. split_and!; done || by eexists.
Defined.

(** The area of a polygon, by the shoelace formula. *)
Fixpoint crossSum (first prev : Point) (ps : list Point) : Z :=
  match ps with
  | [] => fst prev * snd first - fst first * snd prev
  | p :: ps' => fst prev * snd p - fst p * snd prev + crossSum first p ps'
  end.

Definition polygonArea (c : Contour) : Q :=
  match c with
  | [] => 0%Q
  | p :: ps => (Z.abs (crossSum p p ps) # 2)%Q
  end.

(** The instance of the concrete runs, with the area of polygons. *)
Definition cvPolygons : OpenCV := {|
  imread := @imread Reference.cv;
  resize := @resize Reference.cv;
  cvtColor := @cvtColor Reference.cv;
  adaptiveThreshold := @adaptiveThreshold Reference.cv;
  dilate := @dilate Reference.cv;
  erode := @erode Reference.cv;
  findContours := @findContours Reference.cv;
  contourArea := polygonArea;
  approxPolyDP := @approxPolyDP Reference.cv;
  drawContours := @drawContours Reference.cv;
  morphologyEx := @morphologyEx Reference.cv;
  inpaint := @inpaint Reference.cv;
  floodFill := @floodFill Reference.cv
|}.

(** A square of area 100 and a triangle of area 2. *)
Definition square : Contour := [(0, 0); (10, 0); (10, 10); (0, 10)].

Definition triangle : Contour := [(0, 0); (2, 0); (0, 2)].

Lemma square_and_triangle :
  (polygonArea square == 100 # 1)%Q /\ (polygonArea triangle == 2 # 1)%Q.
Proof. split; vm_compute; reflexivity. Qed.


Lemma repairGaps_skips_large_witness :
  repairGaps (cv := cvPolygons) [square] loaded = (Ok tt, loaded).
Proof.
  apply (repairGaps_skips_large (cv := cvPolygons) [square] loaded).
  intros c [<-|[]]. vm_compute. discriminate.
Defined.

Lemma target_size_positive_witness :
  (1 <= fst (targetSize 400 300 800 500) /\ 1 <= snd (targetSize 400 300 800 500)) /\
  targetSize 1000 1 800 600 = (800, 0).
Proof.
  split.
  - apply (target_size_positive 400 300 800 500); unfold small; lia.
  - apply (target_size_positive 1000 1 800 600); unfold small; lia.
Defined.

(** A session in which the photo is loaded, the check box is clicked and
    the raster is double clicked, in an application that starts with the
    fill tool off. *)
Definition boxClicked : list Input :=
  [OnGenerator (Browse "speck.png");
   OnControls ImageControlsWindow.FillToolClicked;
   OnGenerator (MouseDoubleClick (mkQPoint 0 0))].

Lemma fill_tool_is_never_switched_witness :
  ImageControlsWindow.fillTool
    (imageControlsWindow (session boxClicked (main Reference.area false))) = true /\
  (reachable (generator (session boxClicked (main Reference.area false))) /\
   fillToolEnabled (generator (session boxClicked (main Reference.area false))) =
     fillToolEnabled (generator (main Reference.area false)) /\
   (fillToolEnabled (generator (main Reference.area false)) = false ->
    forall p, mouseDoubleClickEvent p
                (generator (session boxClicked (main Reference.area false))) =
              generator (session boxClicked (main Reference.area false)))).
Proof.
  split; [vm_compute; reflexivity|].
  apply (fill_tool_is_never_switched boxClicked (main Reference.area false)).
  - reflexivity.
  - by exists Reference.area, false, [].
Defined.

Lemma windows_agree_on_colour_witness :
  let inputs := [OnControls (ImageControlsWindow.ColorPickerClicked
                               (Some (mkQColor 255 128 0)));
                 OnGenerator (Browse "speck.png")] in
  ImageControlsWindow.colorPicker
    (imageControlsWindow (session inputs (main Reference.area true))) =
    "background-color: #ff8000" /\
  (agree (session inputs (main Reference.area true)) /\
   fillColor (generator (step (OnControls (ImageControlsWindow.ColorPickerClicked None))
                          (session inputs (main Reference.area true)))) =
     mkQColor 0 0 0).
Proof.
  cbv zeta. split; [vm_compute; reflexivity|].
  apply (windows_agree_on_colour Reference.area true
           [OnControls (ImageControlsWindow.ColorPickerClicked
                          (Some (mkQColor 255 128 0)));
            OnGenerator (Browse "speck.png")]).
  reflexivity.
Defined.

Lemma moves_need_left_press_witness :
  let events := [MouseMove (mkQPoint 1 1); MousePress RightButton (mkQPoint 0 0);
                 MouseMove (mkQPoint 2 2); MouseDoubleClick (mkQPoint 0 0)] in
  drawing (run events loaded) = false /\
  run events loaded =
    run (List.filter (fun e => negb (isMove e)) events) loaded.
Proof.
  apply (moves_need_left_press
           [MouseMove (mkQPoint 1 1); MousePress RightButton (mkQPoint 0 0);
            MouseMove (mkQPoint 2 2); MouseDoubleClick (mkQPoint 0 0)] loaded).
  - reflexivity.
  - reflexivity.
Defined.

Lemma save_writes_working_raster_witness :
  ("out.png" = "" -> saveImage "out.png" (run stroke loaded) = run stroke loaded) /\
  ("out.png" <> "" ->
   saveImage "out.png" (run stroke loaded) =
     show (if save (cols (coloringPage (run stroke loaded)))
                (rows (coloringPage (run stroke loaded)))
                (ipixels (workingRaster (run stroke loaded))) "out.png"
           then information "Success" "Image saved successfully."
           else critical "Error" "Failed to save the image.") (run stroke loaded)) /\
  workingRaster (saveImage "out.png" (run stroke loaded)) =
    workingRaster (run stroke loaded) /\
  snapshots (saveImage "out.png" (run stroke loaded)) = snapshots (run stroke loaded) /\
  Synced (saveImage "out.png" (run stroke loaded)).
Proof.
  apply (save_writes_working_raster "out.png" (run stroke loaded)).
  vm_compute. reflexivity.
Defined.
